(** * kvbadger: the key-value adapter over the Badger engine

    A shallow embedding of [badger.go].  The adapter keeps no data of its
    own: a handle is a pointer to the database (used only as the "still
    open" mark) and an engine transaction, and every operation is a short
    wrapper around one engine call.  The engine is therefore a parameter of
    the development (class [Engine]); a small in-memory engine is given at
    the end of the definitions to run the adapter on concrete stores.

    Go values are rendered as follows.
    - [string] is [String.string]; [[]byte] is [list byte]; the conversions
      [[]byte(k)] and [string(b)] are [list_byte_of_string] and
      [string_of_list_byte].  Go orders strings by their bytes, so the
      comparisons of the source are defined through [bytes_Compare].
    - [error] is the inductive [error]; a nil error is [None].
    - a method with a pointer receiver takes the receiver's state and
      returns the new one together with its results.
    - a call that panics at run time has the outcome [Panics].
    - the [context.Context] argument is ignored by every method of the
      source and is left out. *)

From Stdlib Require Import List Strings.String Strings.Ascii Strings.Byte NArith Bool Sorted Lia.
From Stdlib Require Import PeanoNat.
Import ListNotations.
Local Open Scope string_scope.
Local Open Scope list_scope.

Set Implicit Arguments.

(* ================================================================== *)
(** ** Bytes and the order of keys *)

(** [bytes.Compare]: lexicographic comparison of two byte slices. *)
Fixpoint bytes_Compare (a b : list byte) : comparison :=
  match a, b with
  | [], [] => Eq
  | [], _ :: _ => Lt
  | _ :: _, [] => Gt
  | x :: a', y :: b' =>
      match N.compare (Byte.to_N x) (Byte.to_N y) with
      | Eq => bytes_Compare a' b'
      | c => c
      end
  end.

Definition bytes_ltb (a b : list byte) : bool :=
  match bytes_Compare a b with Lt => true | _ => false end.

Definition bytes_eqb (a b : list byte) : bool :=
  match bytes_Compare a b with Eq => true | _ => false end.

(** The comparison operators of Go on strings ([<], [>], [>=]). *)
Definition string_ltb (a b : string) : bool :=
  bytes_ltb (list_byte_of_string a) (list_byte_of_string b).
Definition string_gtb (a b : string) : bool := string_ltb b a.
Definition string_geb (a b : string) : bool := negb (string_ltb a b).

Definition string_lt (a b : string) : Prop := string_ltb a b = true.
Definition string_gt (a b : string) : Prop := string_lt b a.

(** [s != ""] *)
Definition nonempty (s : string) : bool := negb (String.eqb s "").

(* ================================================================== *)
(** ** Errors *)

(** The error values that the adapter and the engine exchange.  [Wrap]
    stands for an error that wraps another one ([fmt.Errorf] with [%w]). *)
Inductive error : Type :=
| ErrTxDone        (* sql.ErrTxDone: "transaction has already been committed or rolled back" *)
| ErrNotExist      (* os.ErrNotExist *)
| ErrInvalid       (* os.ErrInvalid *)
| ErrKeyNotFound   (* badger.ErrKeyNotFound *)
| ErrEmptyKey      (* badger.ErrEmptyKey *)
| ErrDiscardedTxn  (* badger.ErrDiscardedTxn *)
| ErrReadOnlyTxn   (* badger.ErrReadOnlyTxn *)
| ErrConflict      (* badger.ErrConflict *)
| ErrOther (msg : string)
| Wrap (msg : string) (inner : error).

Fixpoint error_eqb (a b : error) : bool :=
  match a, b with
  | ErrTxDone, ErrTxDone
  | ErrNotExist, ErrNotExist
  | ErrInvalid, ErrInvalid
  | ErrKeyNotFound, ErrKeyNotFound
  | ErrEmptyKey, ErrEmptyKey
  | ErrDiscardedTxn, ErrDiscardedTxn
  | ErrReadOnlyTxn, ErrReadOnlyTxn
  | ErrConflict, ErrConflict => true
  | ErrOther m, ErrOther m' => String.eqb m m'
  | Wrap m e, Wrap m' e' => String.eqb m m' && error_eqb e e'
  | _, _ => false
  end.

(** [errors.Is]: [err] is [target] or wraps it, at any depth. *)
Fixpoint errors_Is (err target : error) : bool :=
  error_eqb err target ||
  match err with
  | Wrap _ inner => errors_Is inner target
  | _ => false
  end.

(** The result of a call that may panic. *)
Inductive outcome (A : Type) : Type :=
| Returns (a : A)
| Panics.
Arguments Panics {A}.

(* ================================================================== *)
(** ** Value streams *)

(** An [io.Reader], seen by what reading it to the end delivers: the
    bytes, and the error that ended the stream if it was not EOF. *)
Record Reader : Type := mkReader {
  Reader_data : list byte;
  Reader_err : option error
}.

(** [bytes.NewReader] *)
Definition bytes_NewReader (v : list byte) : Reader :=
  {| Reader_data := v; Reader_err := None |}.

(** [io.ReadAll] on a reader that is not nil. *)
Definition io_ReadAll (r : Reader) : list byte * option error :=
  (Reader_data r, Reader_err r).

(* ================================================================== *)
(** ** The engine *)

(** [badger.Item]: [KeyCopy(nil)] is [Item_key], [ValueCopy(nil)] is
    [Item_value] (the value, or the error of reading it). *)
Record Item : Type := mkItem {
  Item_key : list byte;
  Item_value : list byte + error
}.

(** The engine as the adapter uses it.  A value of [Txn] is the state
    reached through the [*badger.Txn] pointer of a handle.
    [Txn_entries] is what an iterator opened on the transaction goes
    through, in ascending key order; it is [None] when [NewIterator]
    panics (Badger does on a discarded transaction).  Reads leave the
    transaction as it is: the bookkeeping of read keys for conflict
    detection is not part of the model. *)
Class Engine : Type := {
  DB : Type;
  Txn : Type;
  DB_NewTransaction : DB -> bool -> Txn;
  Txn_Get : Txn -> list byte -> Item + error;
  Txn_Set : Txn -> list byte -> list byte -> Txn * option error;
  Txn_Delete : Txn -> list byte -> Txn * option error;
  Txn_Commit : Txn -> Txn * option error;
  Txn_Discard : Txn -> Txn;
  Txn_entries : Txn -> option (list Item)
}.

(** [badger.IteratorOptions], of which the adapter sets [Reverse] only. *)
Record IteratorOptions : Type := { Reverse : bool }.
Definition DefaultIteratorOptions : IteratorOptions := {| Reverse := false |}.

(** [badger.Iterator]: a cursor over the entries of the transaction.
    [it_cursor] holds the entry under the cursor and those after it in
    the direction of the iteration; the iterator is valid when it is not
    empty. *)
Record Iterator : Type := {
  it_opt : IteratorOptions;
  it_table : list Item;
  it_cursor : list Item
}.

Fixpoint dropWhile {A : Type} (p : A -> bool) (l : list A) : list A :=
  match l with
  | [] => []
  | x :: l' => if p x then dropWhile p l' else l
  end.

(** The entries in the order the iterator visits them. *)
Definition it_order (it : Iterator) : list Item :=
  if Reverse (it_opt it) then rev (it_table it) else it_table it.

Definition Txn_NewIterator `{Engine} (t : Txn) (opt : IteratorOptions)
  : outcome Iterator :=
  match Txn_entries t with
  | None => Panics
  | Some l => Returns {| it_opt := opt; it_table := l; it_cursor := [] |}
  end.

(** [Rewind]: back to the first entry of the iteration, the smallest key
    going forward and the largest in reverse. *)
Definition Iterator_Rewind (it : Iterator) : Iterator :=
  {| it_opt := it_opt it; it_table := it_table it; it_cursor := it_order it |}.

(** [Seek]: to the key if it is there, else to the next key after it in
    the direction of the iteration (the smallest key above it going
    forward, the largest key below it in reverse). *)
Definition Iterator_Seek (it : Iterator) (key : list byte) : Iterator :=
  let before (i : Item) :=
    if Reverse (it_opt it) then bytes_ltb key (Item_key i)
    else bytes_ltb (Item_key i) key in
  {| it_opt := it_opt it; it_table := it_table it;
     it_cursor := dropWhile before (it_order it) |}.

Definition Iterator_Valid (it : Iterator) : bool :=
  match it_cursor it with [] => false | _ :: _ => true end.

Definition Iterator_Item (it : Iterator) : option Item := hd_error (it_cursor it).

Definition Iterator_Next (it : Iterator) : Iterator :=
  {| it_opt := it_opt it; it_table := it_table it; it_cursor := tl (it_cursor it) |}.

(* ================================================================== *)
(** ** The adapter *)

Section Adapter.
Context `{E : Engine}.

(** [type Database struct { db *badger.DB }] *)
Record Database : Type := { Database_db : DB }.

(** [New] *)
Definition New (db : DB) : Database := {| Database_db := db |}.

(** [type txn struct { db *Database; tx *badger.Txn }]; [txn_db] is
    [None] for the nil pointer. *)
Record txn : Type := {
  txn_db : option Database;
  txn_tx : Txn
}.

(** [Transaction] and [Snapshot] embed [*txn]: the methods of [txn] are
    theirs too. *)
Record Transaction : Type := { Transaction_txn : txn }.
Record Snapshot : Type := { Snapshot_txn : txn }.

Definition Database_NewTransaction (d : Database) : Transaction :=
  {| Transaction_txn :=
       {| txn_db := Some d; txn_tx := DB_NewTransaction (Database_db d) true |} |}.

Definition Database_NewSnapshot (d : Database) : Snapshot :=
  {| Snapshot_txn :=
       {| txn_db := Some d; txn_tx := DB_NewTransaction (Database_db d) false |} |}.

(** [txn.Commit] *)
Definition txn_Commit (t : txn) : txn * option error :=
  match txn_db t with
  | None => (t, Some ErrTxDone)
  | Some _ =>
      let (tx', err) := Txn_Commit (txn_tx t) in
      ({| txn_db := None; txn_tx := tx' |}, err)
  end.

(** [txn.discard] *)
Definition txn_discard (t : txn) : txn * option error :=
  match txn_db t with
  | None => (t, Some ErrTxDone)
  | Some _ => ({| txn_db := None; txn_tx := Txn_Discard (txn_tx t) |}, None)
  end.

(** [txn.Get] *)
Definition txn_Get (t : txn) (k : string) : Reader + error :=
  match Txn_Get (txn_tx t) (list_byte_of_string k) with
  | inr err =>
      if errors_Is err ErrKeyNotFound then inr ErrNotExist else inr err
  | inl item =>
      match Item_value item with
      | inr err => inr err
      | inl v => inl (bytes_NewReader v)
      end
  end.

(** [txn.Set]; [v] is [None] for a nil [io.Reader], on which
    [io.ReadAll] panics. *)
Definition txn_Set (t : txn) (k : string) (v : option Reader)
  : outcome (txn * option error) :=
  match txn_db t with
  | None => Returns (t, Some ErrTxDone)
  | Some _ =>
      match v with
      | None => Panics
      | Some r =>
          match io_ReadAll r with
          | (_, Some err) => Returns (t, Some err)
          | (data, None) =>
              let (tx', err) := Txn_Set (txn_tx t) (list_byte_of_string k) data in
              Returns ({| txn_db := txn_db t; txn_tx := tx' |}, err)
          end
      end
  end.

(** [txn.Delete] *)
Definition txn_Delete (t : txn) (k : string) : txn * option error :=
  match txn_db t with
  | None => (t, Some ErrTxDone)
  | Some _ =>
      let (tx', r) := Txn_Delete (txn_tx t) (list_byte_of_string k) in
      let t' := {| txn_db := txn_db t; txn_tx := tx' |} in
      match r with
      | Some err =>
          if errors_Is err ErrKeyNotFound then (t', Some ErrNotExist)
          else (t', Some err)
      | None => (t', None)
      end
  end.

(** An [iter.Seq2[string, io.Reader]] run to its end against a consumer.
    The consumer is the [yield] function with the state it keeps of type
    [S]; it answers whether it wants more.  The run takes the content of
    the error slot [*errp] and gives back the consumer's state and the
    slot. *)
Definition Yield (S : Type) : Type := S -> string -> Reader -> S * bool.
Definition Seq2 : Type :=
  forall S : Type, Yield S -> S -> option error -> outcome (S * option error).

(** The loop of [Scan] from the cursor on: [cur] is empty when the
    iterator is not valid, else its head is [it.Item()] and its tail the
    cursor after [it.Next()]. *)
Fixpoint scan_loop {S : Type} (yield : Yield S) (cur : list Item)
  (s : S) (errp : option error) : S * option error :=
  match cur with
  | [] => (s, errp)
  | item :: rest =>
      let key := string_of_list_byte (Item_key item) in
      match Item_value item with
      | inr err => (s, Some err)
      | inl data =>
          let (s', more) := yield s key (bytes_NewReader data) in
          if more then scan_loop yield rest s' errp else (s', errp)
      end
  end.

(** [txn.Scan] *)
Definition txn_Scan (t : txn) : Seq2 :=
  fun S yield s errp =>
    match Txn_NewIterator (txn_tx t) DefaultIteratorOptions with
    | Panics => Panics
    | Returns it =>
        let it := Iterator_Rewind it in
        Returns (scan_loop yield (it_cursor it) s errp)
    end.

(** The loop of [Ascend] from the cursor on. *)
Fixpoint ascend_loop {S : Type} (end_ : string) (yield : Yield S)
  (cur : list Item) (s : S) (errp : option error) : S * option error :=
  match cur with
  | [] => (s, errp)
  | item :: rest =>
      let key := string_of_list_byte (Item_key item) in
      if nonempty end_ && string_geb key end_ then (s, errp)
      else
        match Item_value item with
        | inr err => (s, Some err)
        | inl data =>
            let (s', more) := yield s key (bytes_NewReader data) in
            if more then ascend_loop end_ yield rest s' errp else (s', errp)
        end
  end.

(** [txn.Ascend] *)
Definition txn_Ascend (t : txn) (beg end_ : string) : Seq2 :=
  fun S yield s errp =>
    if string_gtb beg end_ && nonempty end_ then Returns (s, Some ErrInvalid)
    else
      match Txn_NewIterator (txn_tx t) DefaultIteratorOptions with
      | Panics => Panics
      | Returns it =>
          let it := Iterator_Rewind it in
          let it :=
            if nonempty beg then Iterator_Seek it (list_byte_of_string beg)
            else it in
          Returns (ascend_loop end_ yield (it_cursor it) s errp)
      end.

(** The loop of [Descend] from the cursor on; [continue] goes on with
    the cursor after [it.Next()]. *)
Fixpoint descend_loop {S : Type} (beg end_ : string) (yield : Yield S)
  (cur : list Item) (s : S) (errp : option error) : S * option error :=
  match cur with
  | [] => (s, errp)
  | item :: rest =>
      let key := string_of_list_byte (Item_key item) in
      if nonempty end_ && String.eqb key end_ then
        descend_loop beg end_ yield rest s errp
      else if nonempty beg && string_ltb key beg then (s, errp)
      else
        match Item_value item with
        | inr err => (s, Some err)
        | inl data =>
            let (s', more) := yield s key (bytes_NewReader data) in
            if more then descend_loop beg end_ yield rest s' errp
            else (s', errp)
        end
  end.

(** [txn.Descend] *)
Definition txn_Descend (t : txn) (beg end_ : string) : Seq2 :=
  fun S yield s errp =>
    if string_gtb beg end_ && nonempty end_ then Returns (s, Some ErrInvalid)
    else
      match Txn_NewIterator (txn_tx t) {| Reverse := true |} with
      | Panics => Panics
      | Returns it =>
          let it := Iterator_Rewind it in
          let it :=
            if nonempty end_ then Iterator_Seek it (list_byte_of_string end_)
            else it in
          Returns (descend_loop beg end_ yield (it_cursor it) s errp)
      end.

(** [Transaction.Rollback] and [Snapshot.Discard] *)
Definition Transaction_Rollback (t : Transaction) : Transaction * option error :=
  let (t', err) := txn_discard (Transaction_txn t) in
  ({| Transaction_txn := t' |}, err).

Definition Snapshot_Discard (s : Snapshot) : Snapshot * option error :=
  let (t', err) := txn_discard (Snapshot_txn s) in
  ({| Snapshot_txn := t' |}, err).

End Adapter.


(* ================================================================== *)
(** ** Methods promoted by embedding *)

(** [Transaction] and [Snapshot] have no [Commit], [Get], [Set] or
    [Delete] of their own: a call on either is the call on the embedded
    [*txn].  Two abbreviations for stating results follow them. *)
Section Promoted.
Context `{E : Engine}.

Definition on_Snapshot (A : Type) (r : txn * A) : Snapshot * A :=
  ({| Snapshot_txn := fst r |}, snd r).
Definition on_Transaction (A : Type) (r : txn * A) : Transaction * A :=
  ({| Transaction_txn := fst r |}, snd r).

Definition Snapshot_Commit (s : Snapshot) : Snapshot * option error :=
  on_Snapshot (txn_Commit (Snapshot_txn s)).
Definition Snapshot_Get (s : Snapshot) (k : string) : Reader + error :=
  txn_Get (Snapshot_txn s) k.
Definition Snapshot_Set (s : Snapshot) (k : string) (v : option Reader)
  : outcome (Snapshot * option error) :=
  match txn_Set (Snapshot_txn s) k v with
  | Panics => Panics
  | Returns r => Returns (on_Snapshot r)
  end.
Definition Snapshot_Delete (s : Snapshot) (k : string) : Snapshot * option error :=
  on_Snapshot (txn_Delete (Snapshot_txn s) k).

Definition Transaction_Commit (t : Transaction) : Transaction * option error :=
  on_Transaction (txn_Commit (Transaction_txn t)).
Definition Transaction_Get (t : Transaction) (k : string) : Reader + error :=
  txn_Get (Transaction_txn t) k.
Definition Transaction_Set (t : Transaction) (k : string) (v : option Reader)
  : outcome (Transaction * option error) :=
  match txn_Set (Transaction_txn t) k v with
  | Panics => Panics
  | Returns r => Returns (on_Transaction r)
  end.
Definition Transaction_Delete (t : Transaction) (k : string) : Transaction * option error :=
  on_Transaction (txn_Delete (Transaction_txn t) k).

(** The handle with another engine transaction behind it. *)
Definition with_tx (t : txn) (tx' : Txn) : txn :=
  {| txn_db := txn_db t; txn_tx := tx' |}.

(** What the adapter makes of an error of the engine: the engine's "key
    not found" becomes [os.ErrNotExist], any other error is returned as
    it is. *)
Definition passthrough (r : option error) : option error :=
  match r with
  | Some err => if errors_Is err ErrKeyNotFound then Some ErrNotExist else Some err
  | None => None
  end.

End Promoted.

(* ================================================================== *)
(** ** What the adapter expects of the engine *)

Definition bytes_lt (a b : list byte) : Prop := bytes_ltb a b = true.
Definition Item_lt (i j : Item) : Prop := bytes_lt (Item_key i) (Item_key j).

(** The entry stored under [k] among [l], as the engine's [Get] answers. *)
Definition lookup_item (k : list byte) (l : list Item) : Item + error :=
  match find (fun i => bytes_eqb (Item_key i) k) l with
  | Some i => inl i
  | None => inr ErrKeyNotFound
  end.

(** The contract of a sorted transactional store, in the terms of the
    interface above:
    - an iterator goes through the entries in strictly ascending key
      order;
    - [Get] on an open transaction finds what the iterator would show
      under a key, and reports [ErrKeyNotFound] for any other key;
    - a write that was accepted is seen by the next [Get] of its key;
    - the engine never answers with [os.ErrNotExist], which is the
      adapter's own word. *)
Class EngineContract (E : Engine) : Prop := {
  entries_sorted :
    forall (t : Txn) (l : list Item),
      Txn_entries t = Some l -> StronglySorted Item_lt l;
  Get_entries :
    forall (t : Txn) (l : list Item) (k : list byte),
      Txn_entries t = Some l -> k <> [] -> Txn_Get t k = lookup_item k l;
  Get_after_Set :
    forall (t t' : Txn) (k v : list byte),
      Txn_Set t k v = (t', None) ->
      Txn_Get t' k = inl {| Item_key := k; Item_value := inl v |};
  value_errors_foreign :
    forall (t : Txn) (l : list Item) (i : Item) (e : error),
      Txn_entries t = Some l -> In i l -> Item_value i = inr e ->
      errors_Is e ErrNotExist = false;
  Delete_errors_foreign :
    forall (t t' : Txn) (k : list byte) (e : error),
      Txn_Delete t k = (t', Some e) -> errors_Is e ErrNotExist = false
}.

(* ================================================================== *)
(** ** Reading the results *)

(** A consumer fed with a list of pairs: it takes them in order until it
    declines. *)
Fixpoint feed {S : Type} (yield : Yield S) (s : S) (l : list (string * Reader)) : S :=
  match l with
  | [] => s
  | (k, r) :: l' =>
      let (s', more) := yield s k r in
      if more then feed yield s' l' else s'
  end.

(** The consumer that keeps every pair and always asks for more. *)
Definition collect : Yield (list (string * Reader)) :=
  fun acc k r => (acc ++ [(k, r)], true).

Definition Item_name (i : Item) : string := string_of_list_byte (Item_key i).

Definition readable (i : Item) : Prop :=
  exists data : list byte, Item_value i = inl data.

(** The pairs that a run over the entries [l] hands to the consumer. *)
Fixpoint entry_pairs (l : list Item) : list (string * Reader) :=
  match l with
  | [] => []
  | i :: l' =>
      match Item_value i with
      | inl data => (Item_name i, bytes_NewReader data) :: entry_pairs l'
      | inr _ => entry_pairs l'
      end
  end.

(** The half-open range [[beg, end_)], where an empty bound is no bound. *)
Definition in_range (beg end_ k : string) : bool :=
  negb (string_ltb k beg) && (negb (nonempty end_) || string_ltb k end_).

(** An error result that is, or wraps, [target]. *)
Definition fails_with (r : option error) (target : error) : Prop :=
  match r with
  | Some e => errors_Is e target = true
  | None => False
  end.

Definition Get_error (r : Reader + error) : option error :=
  match r with inl _ => None | inr e => Some e end.

(** The calls that end a handle. *)
Inductive finisher : Type := DoCommit | DoRollback.

Definition finish `{Engine} (f : finisher) (t : txn) : txn * option error :=
  match f with
  | DoCommit => txn_Commit t
  | DoRollback => txn_discard t
  end.

(** The calls on a handle that take no consumer, for runs of several
    calls on one handle. *)
Inductive call : Type :=
| CallCommit
| CallRollback
| CallGet (k : string)
| CallSet (k : string) (v : option Reader)
| CallDelete (k : string).

Definition run_call `{Engine} (c : call) (t : txn) : outcome (txn * option error) :=
  match c with
  | CallCommit => Returns (txn_Commit t)
  | CallRollback => Returns (txn_discard t)
  | CallGet k => Returns (t, Get_error (txn_Get t k))
  | CallSet k v => txn_Set t k v
  | CallDelete k => Returns (txn_Delete t k)
  end.

(** The handle after a run of calls, or [Panics] if one of them did. *)
Fixpoint run_calls `{Engine} (cs : list call) (t : txn) : outcome txn :=
  match cs with
  | [] => Returns t
  | c :: cs' =>
      match run_call c t with
      | Panics => Panics
      | Returns (t', _) => run_calls cs' t'
      end
  end.

(* ================================================================== *)
(** ** An engine in memory *)

(** A store kept in memory that follows the checks Badger documents for
    its transactions: an empty key is refused with [ErrEmptyKey], a
    discarded transaction with [ErrDiscardedTxn], a write through a
    read-only transaction with [ErrReadOnlyTxn]; a write is refused as
    well under a key with the reserved prefix, under a key longer than
    [maxKeySize] and with a value longer than [ValueLogFileSize]; a
    deletion writes a tombstone and does not look for the key.  The
    transaction keeps the writes it sees, latest first; [None] is a
    tombstone. *)
Module Mem.

Record MemTxn : Type := {
  update : bool;
  discarded : bool;
  writes : list (list byte * option (list byte))
}.

Fixpoint upsert (k v : list byte) (l : list Item) : list Item :=
  match l with
  | [] => [mkItem k (inl v)]
  | i :: l' =>
      match bytes_Compare k (Item_key i) with
      | Lt => mkItem k (inl v) :: l
      | Eq => mkItem k (inl v) :: l'
      | Gt => i :: upsert k v l'
      end
  end.

Definition remove (k : list byte) (l : list Item) : list Item :=
  filter (fun i => negb (bytes_eqb (Item_key i) k)) l.

(** The entries that a list of writes amounts to, in key order. *)
Fixpoint view (ws : list (list byte * option (list byte))) : list Item :=
  match ws with
  | [] => []
  | (k, Some v) :: ws' => upsert k v (view ws')
  | (k, None) :: ws' => remove k (view ws')
  end.

Definition is_empty (k : list byte) : bool :=
  match k with [] => true | _ :: _ => false end.

Definition NewTransaction (db : list (list byte * list byte)) (upd : bool) : MemTxn :=
  {| update := upd; discarded := false;
     writes := map (fun kv => (fst kv, Some (snd kv))) db |}.

Definition Get (t : MemTxn) (k : list byte) : Item + error :=
  if is_empty k then inr ErrEmptyKey
  else if discarded t then inr ErrDiscardedTxn
  else lookup_item k (view (writes t)).

(** The keys and sizes that Badger refuses to write, with its default
    options. *)
Definition badgerPrefix : list byte := list_byte_of_string "!badger!".
Definition maxKeySize : N := 65000.
Definition ValueLogFileSize : N := 1073741823.
Definition ErrInvalidKey : error :=
  ErrOther "Key is using a reserved !badger! prefix".
Definition ErrKeyTooBig : error := ErrOther "Key exceeded 65000 limit".
Definition ErrValueTooBig : error := ErrOther "Value exceeded 1073741823 limit".

Fixpoint has_prefix (p k : list byte) : bool :=
  match p, k with
  | [], _ => true
  | _ :: _, [] => false
  | x :: p', y :: k' => Byte.eqb x y && has_prefix p' k'
  end.

Definition size (v : list byte) : N := N.of_nat (List.length v).

(** The reason for which a write of [w] under [k] is refused, if it is. *)
Definition refused (k : list byte) (w : option (list byte)) : option error :=
  if is_empty k then Some ErrEmptyKey
  else if has_prefix badgerPrefix k then Some ErrInvalidKey
  else if N.ltb maxKeySize (size k) then Some ErrKeyTooBig
  else if N.ltb ValueLogFileSize (size (match w with Some v => v | None => [] end))
       then Some ErrValueTooBig
  else None.

Definition modify (t : MemTxn) (k : list byte) (w : option (list byte))
  : MemTxn * option error :=
  if negb (update t) then (t, Some ErrReadOnlyTxn)
  else if discarded t then (t, Some ErrDiscardedTxn)
  else match refused k w with
       | Some err => (t, Some err)
       | None => ({| update := update t; discarded := discarded t;
                     writes := (k, w) :: writes t |}, None)
       end.

Definition Set_ (t : MemTxn) (k v : list byte) : MemTxn * option error :=
  modify t k (Some v).

Definition Delete (t : MemTxn) (k : list byte) : MemTxn * option error :=
  modify t k None.

Definition Discard (t : MemTxn) : MemTxn :=
  {| update := update t; discarded := true; writes := writes t |}.

Definition Commit (t : MemTxn) : MemTxn * option error :=
  if discarded t then (t, Some ErrDiscardedTxn) else (Discard t, None).

Definition entries (t : MemTxn) : option (list Item) :=
  if discarded t then None else Some (view (writes t)).

#[export] Instance engine : Engine := {|
  DB := list (list byte * list byte);
  Txn := MemTxn;
  DB_NewTransaction := NewTransaction;
  Txn_Get := Get;
  Txn_Set := Set_;
  Txn_Delete := Delete;
  Txn_Commit := Commit;
  Txn_Discard := Discard;
  Txn_entries := entries
|}.

(** The store with the keys a, b, c, d, e, each with its name as value. *)
Definition b (s : string) : list byte := list_byte_of_string s.
Definition abcde : list (list byte * list byte) :=
  [(b "a", b "a"); (b "b", b "b"); (b "c", b "c"); (b "d", b "d"); (b "e", b "e")].

End Mem.

(** Handles on the store in memory, for concrete runs. *)

Definition mem_database : Database (E := Mem.engine) := New (E := Mem.engine) Mem.abcde.
Definition mem_transaction : Transaction (E := Mem.engine) := Database_NewTransaction mem_database.
Definition mem_snapshot : Snapshot (E := Mem.engine) := Database_NewSnapshot mem_database.
Definition mem_txn : txn (E := Mem.engine) := Transaction_txn mem_transaction.
Definition mem_rolled_back : txn (E := Mem.engine) :=
  Transaction_txn (fst (Transaction_Rollback mem_transaction)).

Definition mem_committed : txn (E := Mem.engine) := fst (txn_Commit mem_txn).

(** The transaction on the store in memory after [Set("k", "")]. *)
Definition mem_txn_k : txn (E := Mem.engine) :=
  with_tx mem_txn (fst (Mem.Set_ (txn_tx mem_txn) (Mem.b "k") [])).

(** A snapshot seen as a transaction over the same state. *)
Definition as_Transaction `{Engine} (s : Snapshot) : Transaction :=
  {| Transaction_txn := Snapshot_txn s |}.

(** The upper bound of [Ascend] on an entry. *)
Definition below (end_ : string) (i : Item) : bool :=
  negb (nonempty end_) || string_ltb (Item_name i) end_.

(** The lower bound on an entry. *)
Definition from (beg : string) (i : Item) : bool :=
  negb (string_ltb (Item_name i) beg).

(** What [Descend] lets through from the cursor on. *)
Definition kept (beg end_ : string) (i : Item) : bool :=
  negb (nonempty end_ && String.eqb (Item_name i) end_) &&
  negb (nonempty beg && string_ltb (Item_name i) beg).

(* ================================================================== *)
(** ** Further consumers, calls and engines *)

(** The entries of [l] in the range. *)
Definition in_bounds (beg end_ : string) (l : list Item) : list Item :=
  filter (fun i => in_range beg end_ (Item_name i)) l.

(** The consumer that keeps the pairs it is handed and declines once it
    holds [n] of them. *)
Definition first_n (n : nat) : Yield (list (string * Reader)) :=
  fun acc k r => (acc ++ [(k, r)], Nat.ltb (Datatypes.S (List.length acc)) n).

(** The calls that end a handle, among those of [call]. *)
Definition is_finisher (c : call) : bool :=
  match c with
  | CallCommit | CallRollback => true
  | CallGet _ | CallSet _ _ | CallDelete _ => false
  end.

(** What an accepted write does to the entries a transaction shows: a
    [Set] puts its pair in place of any entry under the key, a [Delete]
    takes the entry under the key away, and neither touches the entries
    under other keys. *)
Class EngineWrites (E : Engine) : Prop := {
  entries_after_Set :
    forall (t t' : Txn) (k v : list byte) (l : list Item),
      Txn_Set t k v = (t', None) -> Txn_entries t = Some l ->
      exists l' : list Item,
        Txn_entries t' = Some l'
        /\ forall i : Item,
             In i l' <-> i = mkItem k (inl v) \/ (In i l /\ Item_key i <> k);
  entries_after_Delete :
    forall (t t' : Txn) (k : list byte) (l : list Item),
      Txn_Delete t k = (t', None) -> Txn_entries t = Some l ->
      exists l' : list Item,
        Txn_entries t' = Some l'
        /\ forall i : Item, In i l' <-> In i l /\ Item_key i <> k
}.

(** A read-only engine over a fixed list of entries, some of which may
    have a value that cannot be read: it refuses every write and shows
    the list as it is. *)
Module Fixed.

Definition Get (t : list Item) (k : list byte) : Item + error :=
  if Mem.is_empty k then inr ErrEmptyKey else lookup_item k t.

Definition refuse (t : list Item) : list Item * option error :=
  (t, Some ErrReadOnlyTxn).

#[export] Instance engine : Engine := {|
  DB := list Item;
  Txn := list Item;
  DB_NewTransaction := fun db _ => db;
  Txn_Get := Get;
  Txn_Set := fun t _ _ => refuse t;
  Txn_Delete := fun t _ => refuse t;
  Txn_Commit := fun t => (t, None);
  Txn_Discard := fun t => t;
  Txn_entries := fun t => Some t
|}.

(** The entries a, b, c, where the value of b cannot be read. *)
Definition a_c : list Item := [mkItem (Mem.b "a") (inl (Mem.b "1"))].
Definition bad : Item := mkItem (Mem.b "b") (inr (ErrOther "value log"%string)).
Definition c_ : list Item := [mkItem (Mem.b "c") (inl (Mem.b "3"))].
Definition table : list Item := a_c ++ bad :: c_.

End Fixed.

Definition fixed_txn : txn (E := Fixed.engine) :=
  Snapshot_txn (Database_NewSnapshot (New (E := Fixed.engine) Fixed.table)).

(** A transaction on the store that holds the keys b and c only. *)
Definition mem_txn_bc : txn (E := Mem.engine) :=
  Transaction_txn
    (Database_NewTransaction
       (New (E := Mem.engine) [(Mem.b "b", Mem.b "b"); (Mem.b "c", Mem.b "c")])).

(** A run of calls without [Commit] or [Rollback], and the transaction
    on the store in memory after it. *)
Definition some_calls : list call :=
  [CallGet "a"; CallSet "k" (Some (bytes_NewReader (Mem.b "1")));
   CallDelete "a"; CallGet "zz"].
Definition mem_txn_after : txn (E := Mem.engine) :=
  with_tx mem_txn
    (fst (Mem.Delete (fst (Mem.Set_ (txn_tx mem_txn) (Mem.b "k") (Mem.b "1")))
            (Mem.b "a"))).

(** The transaction on the store in memory after [Delete("c")]. *)
Definition mem_txn_no_c : txn (E := Mem.engine) :=
  with_tx mem_txn (fst (Mem.Delete (txn_tx mem_txn) (Mem.b "c"))).

(* ================================================================== *)
(** * Properties *)

(** ** The order of keys *)

Lemma to_N_inj (x y : byte) : Byte.to_N x = Byte.to_N y -> x = y.
Proof.
  intro H.
  assert (Hs : Some x = Some y)
    by (rewrite <- (Byte.of_to_N x), <- (Byte.of_to_N y), H; reflexivity).
  now injection Hs.
Qed.

Lemma bytes_Compare_refl (a : list byte) : bytes_Compare a a = Eq.
Proof.
  induction a as [|x a IH]; simpl; [reflexivity|].
  now rewrite N.compare_refl.
Qed.

Lemma bytes_Compare_eq (a b : list byte) : bytes_Compare a b = Eq -> a = b.
Proof.
  revert b; induction a as [|x a IH]; intros [|y b]; simpl; try congruence.
  destruct (N.compare (Byte.to_N x) (Byte.to_N y)) eqn:Hc; try discriminate.
  intro H. apply N.compare_eq_iff in Hc. apply to_N_inj in Hc.
  f_equal; auto.
Qed.

Lemma bytes_Compare_antisym (a b : list byte) :
  bytes_Compare b a = CompOpp (bytes_Compare a b).
Proof.
  revert b; induction a as [|x a IH]; intros [|y b]; simpl; try reflexivity.
  rewrite (N.compare_antisym (Byte.to_N x) (Byte.to_N y)).
  destruct (N.compare (Byte.to_N x) (Byte.to_N y)); simpl; auto.
Qed.

Lemma bytes_Compare_lt_trans (a b c : list byte) :
  bytes_Compare a b = Lt -> bytes_Compare b c = Lt -> bytes_Compare a c = Lt.
Proof.
  revert b c; induction a as [|x a IH]; intros [|y b] [|z c]; simpl;
    try congruence.
  destruct (N.compare (Byte.to_N x) (Byte.to_N y)) eqn:Hxy; try discriminate;
  destruct (N.compare (Byte.to_N y) (Byte.to_N z)) eqn:Hyz; try discriminate;
  intros H1 H2.
  - apply N.compare_eq_iff in Hxy, Hyz. rewrite Hxy, Hyz, N.compare_refl. eauto.
  - apply N.compare_eq_iff in Hxy. now rewrite Hxy, Hyz.
  - apply N.compare_eq_iff in Hyz. now rewrite <- Hyz, Hxy.
  - rewrite N.compare_lt_iff in Hxy, Hyz.
    assert (Hxz : (Byte.to_N x < Byte.to_N z)%N) by lia.
    apply N.compare_lt_iff in Hxz. now rewrite Hxz.
Qed.

Lemma bytes_ltb_irrefl (a : list byte) : bytes_ltb a a = false.
Proof. unfold bytes_ltb. now rewrite bytes_Compare_refl. Qed.

Lemma bytes_ltb_trans (a b c : list byte) :
  bytes_ltb a b = true -> bytes_ltb b c = true -> bytes_ltb a c = true.
Proof.
  unfold bytes_ltb.
  destruct (bytes_Compare a b) eqn:H1; try discriminate.
  destruct (bytes_Compare b c) eqn:H2; try discriminate.
  now rewrite (bytes_Compare_lt_trans _ _ _ H1 H2).
Qed.

Lemma bytes_ltb_asym (a b : list byte) :
  bytes_ltb a b = true -> bytes_ltb b a = false.
Proof.
  unfold bytes_ltb. rewrite (bytes_Compare_antisym a b).
  destruct (bytes_Compare a b); simpl; congruence.
Qed.

Lemma bytes_ltb_total (a b : list byte) :
  bytes_ltb a b = false -> bytes_ltb b a = false -> a = b.
Proof.
  unfold bytes_ltb. rewrite (bytes_Compare_antisym a b).
  destruct (bytes_Compare a b) eqn:H; simpl; try congruence.
  intros _ _. now apply bytes_Compare_eq.
Qed.

Lemma bytes_eqb_eq (a b : list byte) : bytes_eqb a b = true <-> a = b.
Proof.
  unfold bytes_eqb. split.
  - destruct (bytes_Compare a b) eqn:H; try discriminate.
    intros _. now apply bytes_Compare_eq.
  - intros ->. now rewrite bytes_Compare_refl.
Qed.

(** On the names of entries the order of strings is the order of the
    engine's keys. *)
Lemma Item_name_ltb (i j : Item) :
  string_ltb (Item_name i) (Item_name j) = bytes_ltb (Item_key i) (Item_key j).
Proof.
  unfold string_ltb, Item_name.
  now rewrite !list_byte_of_string_of_list_byte.
Qed.

Lemma string_ltb_irrefl (a : string) : string_ltb a a = false.
Proof. apply bytes_ltb_irrefl. Qed.

Lemma string_ltb_trans (a b c : string) :
  string_ltb a b = true -> string_ltb b c = true -> string_ltb a c = true.
Proof. apply bytes_ltb_trans. Qed.

Lemma list_byte_of_string_inj (a b : string) :
  list_byte_of_string a = list_byte_of_string b -> a = b.
Proof.
  intro H.
  rewrite <- (string_of_list_byte_of_string a), <- (string_of_list_byte_of_string b).
  now rewrite H.
Qed.

Lemma string_ltb_empty (k : string) : string_ltb k "" = false.
Proof.
  unfold string_ltb, bytes_ltb.
  change (list_byte_of_string "") with (@nil byte).
  now destruct (list_byte_of_string k).
Qed.

Lemma nonempty_false (s : string) : nonempty s = false -> s = "".
Proof.
  unfold nonempty. intro H. apply negb_false_iff in H. now apply String.eqb_eq.
Qed.

Lemma nonempty_true (s : string) : nonempty s = true <-> s <> "".
Proof.
  unfold nonempty. rewrite negb_true_iff. apply String.eqb_neq.
Qed.

Lemma nonempty_bytes (s : string) : s <> "" -> list_byte_of_string s <> [].
Proof.
  intros Hs H. apply Hs.
  apply list_byte_of_string_inj. exact H.
Qed.

(** ** Sorted lists and cursors *)

Section SortedLists.
Variable A : Type.
Variable R : A -> A -> Prop.

Lemma filter_all (f : A -> bool) (l : list A) :
  Forall (fun x => f x = true) l -> filter f l = l.
Proof.
  induction 1 as [|x l Hx _ IH]; simpl; [reflexivity|].
  now rewrite Hx, IH.
Qed.

Lemma filter_none (f : A -> bool) (l : list A) :
  Forall (fun x => f x = false) l -> filter f l = [].
Proof.
  induction 1 as [|x l Hx _ IH]; simpl; [reflexivity|].
  now rewrite Hx.
Qed.

Lemma filter_and (f g : A -> bool) (l : list A) :
  filter f (filter g l) = filter (fun x => g x && f x) l.
Proof.
  induction l as [|x l IH]; simpl; [reflexivity|].
  destruct (g x); simpl; [destruct (f x)|]; now rewrite IH.
Qed.

(** Skipping a prefix of a sorted list that is closed under [R] is
    filtering it out. *)
Lemma dropWhile_sorted (p : A -> bool) (l : list A) :
  StronglySorted R l ->
  (forall x y, R x y -> p y = true -> p x = true) ->
  dropWhile p l = filter (fun x => negb (p x)) l.
Proof.
  intros Hs Hp. induction Hs as [|x l Hs IH Hx]; simpl; [reflexivity|].
  destruct (p x) eqn:Hpx; simpl; [exact IH|].
  f_equal. symmetry. apply filter_all.
  eapply Forall_impl; [|exact Hx]. intros y Hxy. simpl in Hxy.
  destruct (p y) eqn:Hpy; [|reflexivity].
  rewrite (Hp x y Hxy Hpy) in Hpx. discriminate.
Qed.

Lemma StronglySorted_filter (f : A -> bool) (l : list A) :
  StronglySorted R l -> StronglySorted R (filter f l).
Proof.
  induction 1 as [|x l Hs IH Hx]; simpl; [constructor|].
  destruct (f x); [|exact IH].
  constructor; [exact IH|].
  rewrite Forall_forall in *. intros y Hy. apply filter_In in Hy. now apply Hx.
Qed.

End SortedLists.

Lemma StronglySorted_snoc (A : Type) (R : A -> A -> Prop) (l : list A) (x : A) :
  StronglySorted R l -> Forall (fun y => R y x) l -> StronglySorted R (l ++ [x]).
Proof.
  induction 1 as [|y l Hs IH Hy]; intro Hall; simpl.
  - constructor; constructor.
  - inversion Hall; subst. constructor; [now apply IH|].
    apply Forall_app. split; [exact Hy|]. now constructor.
Qed.

Lemma StronglySorted_rev (A : Type) (R : A -> A -> Prop) (l : list A) :
  StronglySorted R l -> StronglySorted (fun x y => R y x) (rev l).
Proof.
  induction 1 as [|x l Hs IH Hx]; simpl; [constructor|].
  apply StronglySorted_snoc; [exact IH|].
  apply Forall_rev. exact Hx.
Qed.

Lemma StronglySorted_map (A B : Type) (f : A -> B) (R : B -> B -> Prop) (l : list A) :
  StronglySorted (fun x y => R (f x) (f y)) l -> StronglySorted R (map f l).
Proof.
  induction 1 as [|x l Hs IH Hx]; simpl; constructor; [exact IH|].
  rewrite Forall_forall in *. intros y Hy. apply in_map_iff in Hy.
  destruct Hy as [z [<- Hz]]. now apply Hx.
Qed.

(** The cursor of an iterator, as [Valid], [Item] and [Next] see it: the
    loops of the adapter go down [it_cursor] as the source goes from
    [it.Valid()] through [it.Item()] to [it.Next()]. *)
Lemma cursor_unfold (it : Iterator) :
  (Iterator_Valid it = false /\ it_cursor it = [])
  \/ (exists item : Item,
         Iterator_Valid it = true
         /\ Iterator_Item it = Some item
         /\ it_cursor it = item :: it_cursor (Iterator_Next it)).
Proof.
  unfold Iterator_Valid, Iterator_Item, Iterator_Next.
  destruct (it_cursor it) as [|item rest]; simpl; [now left|].
  right. now exists item.
Qed.

Lemma filter_map_comm (A B : Type) (f : A -> B) (p : B -> bool) (l : list A) :
  filter p (map f l) = map f (filter (fun x => p (f x)) l).
Proof.
  induction l as [|x l IH]; simpl; [reflexivity|].
  destruct (p (f x)); simpl; now rewrite IH.
Qed.

(** ** What a run hands to the consumer *)

Lemma entry_pairs_names (l : list Item) :
  Forall readable l -> map fst (entry_pairs l) = map Item_name l.
Proof.
  induction 1 as [|i l [data Hi] _ IH]; simpl; [reflexivity|].
  rewrite Hi. simpl. now rewrite IH.
Qed.

Lemma entry_pairs_app (l1 l2 : list Item) :
  entry_pairs (l1 ++ l2) = entry_pairs l1 ++ entry_pairs l2.
Proof.
  induction l1 as [|i l1 IH]; simpl; [reflexivity|].
  destruct (Item_value i); simpl; now rewrite IH.
Qed.

Lemma entry_pairs_rev (l : list Item) :
  entry_pairs (rev l) = rev (entry_pairs l).
Proof.
  induction l as [|i l IH]; simpl; [reflexivity|].
  rewrite entry_pairs_app, IH. simpl.
  destruct (Item_value i); simpl; [reflexivity|now rewrite app_nil_r].
Qed.

Lemma Forall_filter (A : Type) (P : A -> Prop) (f : A -> bool) (l : list A) :
  Forall P l -> Forall P (filter f l).
Proof.
  rewrite !Forall_forall. intros H x Hx. apply filter_In in Hx. now apply H.
Qed.

Lemma feed_collect (acc l : list (string * Reader)) :
  feed collect acc l = acc ++ l.
Proof.
  revert acc; induction l as [|[k r] l IH]; intro acc; simpl.
  - now rewrite app_nil_r.
  - rewrite IH, <- app_assoc. reflexivity.
Qed.

(** The test that ends the loop of [Ascend]. *)
Lemma ascend_stop (end_ : string) (i : Item) :
  nonempty end_ && string_geb (Item_name i) end_ = negb (below end_ i).
Proof.
  unfold below, string_geb.
  now destruct (nonempty end_), (string_ltb (Item_name i) end_).
Qed.

Lemma ascend_loop_sorted (S : Type) (yield : Yield S) (end_ : string)
  (cur : list Item) (s : S) (errp : option error) :
  StronglySorted Item_lt cur -> Forall readable (filter (below end_) cur) ->
  ascend_loop end_ yield cur s errp
  = (feed yield s (entry_pairs (filter (below end_) cur)), errp).
Proof.
  intros Hs. revert s. induction Hs as [|i cur Hs IH Hi]; intros s Hr; simpl.
  - reflexivity.
  - fold (Item_name i). rewrite ascend_stop. simpl in Hr.
    destruct (below end_ i) eqn:Hb; simpl.
    + inversion Hr as [|? ? [data Hd] Hr']; subst. rewrite Hd. simpl.
      destruct (yield s (Item_name i) (bytes_NewReader data)) as [s' more].
      destruct more; [now apply IH|reflexivity].
    + rewrite filter_none; [reflexivity|].
      unfold below in Hb. apply orb_false_iff in Hb. destruct Hb as [Hne Hlt].
      eapply Forall_impl; [|exact Hi]. intros j Hij. unfold below. rewrite Hne. simpl.
      destruct (string_ltb (Item_name j) end_) eqn:Hj; [|reflexivity].
      unfold Item_lt, bytes_lt in Hij. rewrite <- Item_name_ltb in Hij.
      rewrite (string_ltb_trans _ _ _ Hij Hj) in Hlt. discriminate.
Qed.

Lemma descend_loop_sorted (S : Type) (yield : Yield S) (beg end_ : string)
  (cur : list Item) (s : S) (errp : option error) :
  StronglySorted (fun i j => Item_lt j i) cur ->
  Forall readable (filter (kept beg end_) cur) ->
  descend_loop beg end_ yield cur s errp
  = (feed yield s (entry_pairs (filter (kept beg end_) cur)), errp).
Proof.
  intros Hs. revert s. induction Hs as [|i cur Hs IH Hi]; intros s Hr; simpl.
  - reflexivity.
  - fold (Item_name i). simpl in Hr. unfold kept at 1. unfold kept at 1 in Hr.
    destruct (nonempty end_ && String.eqb (Item_name i) end_) eqn:Heq; simpl in *;
      [now apply IH|].
    destruct (nonempty beg && string_ltb (Item_name i) beg) eqn:Hlow; simpl in *.
    + rewrite filter_none; [reflexivity|].
      apply andb_true_iff in Hlow. destruct Hlow as [Hne Hlt].
      eapply Forall_impl; [|exact Hi]. intros j Hji. unfold kept.
      unfold Item_lt, bytes_lt in Hji. rewrite <- Item_name_ltb in Hji.
      rewrite Hne, (string_ltb_trans _ _ _ Hji Hlt). simpl.
      apply andb_false_r.
    + inversion Hr as [|? ? [data Hd] Hr']; subst. rewrite Hd. simpl.
      destruct (yield s (Item_name i) (bytes_NewReader data)) as [s' more].
      destruct more; [now apply IH|reflexivity].
Qed.

(** ** The engine in memory keeps the contract *)

Lemma Forall_upsert (P : Item -> Prop) (k v : list byte) (l : list Item) :
  P (mkItem k (inl v)) -> Forall P l -> Forall P (Mem.upsert k v l).
Proof.
  intros Hn. induction 1 as [|i l Hi Hl IH]; simpl.
  - now constructor.
  - destruct (bytes_Compare k (Item_key i)); repeat constructor; auto.
Qed.

Lemma upsert_sorted (k v : list byte) (l : list Item) :
  StronglySorted Item_lt l -> StronglySorted Item_lt (Mem.upsert k v l).
Proof.
  induction 1 as [|i l Hs IH Hi]; simpl.
  - repeat constructor.
  - destruct (bytes_Compare k (Item_key i)) eqn:Hc.
    + apply bytes_Compare_eq in Hc. constructor; [exact Hs|].
      eapply Forall_impl; [|exact Hi]. intros j Hj.
      unfold Item_lt in *. simpl. now rewrite Hc.
    + assert (Hki : Item_lt (mkItem k (inl v)) i)
        by (unfold Item_lt, bytes_lt, bytes_ltb; simpl; now rewrite Hc).
      constructor; [now constructor|]. constructor; [exact Hki|].
      eapply Forall_impl; [|exact Hi]. intros j Hj.
      unfold Item_lt, bytes_lt in *. eapply bytes_ltb_trans; eauto.
    + constructor; [exact IH|]. apply Forall_upsert; [|exact Hi].
      unfold Item_lt, bytes_lt, bytes_ltb. simpl.
      rewrite (bytes_Compare_antisym k (Item_key i)), Hc. reflexivity.
Qed.

Lemma view_sorted (ws : list (list byte * option (list byte))) :
  StronglySorted Item_lt (Mem.view ws).
Proof.
  induction ws as [|[k [v|]] ws IH]; simpl.
  - constructor.
  - now apply upsert_sorted.
  - now apply StronglySorted_filter.
Qed.

Lemma view_readable (ws : list (list byte * option (list byte))) :
  Forall readable (Mem.view ws).
Proof.
  induction ws as [|[k [v|]] ws IH]; simpl.
  - constructor.
  - apply Forall_upsert; [now exists v|exact IH].
  - now apply Forall_filter.
Qed.

Lemma lookup_upsert (k v : list byte) (l : list Item) :
  lookup_item k (Mem.upsert k v l) = inl (mkItem k (inl v)).
Proof.
  assert (Hk : bytes_eqb k k = true) by now apply bytes_eqb_eq.
  unfold lookup_item. induction l as [|i l IH]; simpl.
  - now rewrite Hk.
  - destruct (bytes_Compare k (Item_key i)) eqn:Hc; simpl; try now rewrite Hk.
    unfold bytes_eqb at 1.
    rewrite (bytes_Compare_antisym k (Item_key i)), Hc. simpl. exact IH.
Qed.

Lemma refused_nonempty (k : list byte) (w : option (list byte)) :
  Mem.refused k w = None -> Mem.is_empty k = false.
Proof.
  unfold Mem.refused. now destruct (Mem.is_empty k).
Qed.

Lemma refused_foreign (k : list byte) (w : option (list byte)) (e : error) :
  Mem.refused k w = Some e -> errors_Is e ErrNotExist = false.
Proof.
  unfold Mem.refused.
  destruct (Mem.is_empty k); [now intros [= <-]|].
  destruct (Mem.has_prefix Mem.badgerPrefix k); [now intros [= <-]|].
  destruct (N.ltb Mem.maxKeySize (Mem.size k)); [now intros [= <-]|].
  destruct (N.ltb Mem.ValueLogFileSize _); [now intros [= <-]|discriminate].
Qed.

Lemma Mem_contract : EngineContract Mem.engine.
Proof.
  constructor; simpl.
  - intros t l. unfold Mem.entries. destruct (Mem.discarded t); [discriminate|].
    intros [= <-]. apply view_sorted.
  - intros t l k. unfold Mem.entries, Mem.Get.
    destruct (Mem.discarded t); [discriminate|]. intros [= <-] Hk.
    destruct k; [congruence|reflexivity].
  - intros t t' k v. unfold Mem.Set_, Mem.modify, Mem.Get.
    destruct (Mem.update t); simpl; [|discriminate].
    destruct (Mem.discarded t) eqn:Hd; [discriminate|].
    destruct (Mem.refused k (Some v)) eqn:Href; [discriminate|].
    apply refused_nonempty in Href.
    intros [= <-]. simpl. rewrite Href. apply (lookup_upsert k v).
  - intros t l i e. unfold Mem.entries.
    destruct (Mem.discarded t); [discriminate|]. intros [= <-] Hi Hv.
    pose proof (view_readable (Mem.writes t)) as Hr.
    rewrite Forall_forall in Hr. destruct (Hr i Hi) as [d Hd]. congruence.
  - intros t t' k e. unfold Mem.Delete, Mem.modify.
    destruct (Mem.update t); simpl; [|now intros [= <- <-]].
    destruct (Mem.discarded t); [now intros [= <- <-]|].
    destruct (Mem.refused k None) as [e'|] eqn:Href; [|discriminate].
    intros [= <- <-]. exact (refused_foreign _ _ Href).
Qed.

(** ** Ranges *)

Lemma string_trichotomy (a b : string) :
  string_ltb a b = negb (string_ltb b a) && negb (String.eqb a b).
Proof.
  destruct (String.eqb a b) eqn:He.
  - apply String.eqb_eq in He. subst. rewrite string_ltb_irrefl. reflexivity.
  - rewrite andb_true_r. unfold string_ltb.
    destruct (bytes_ltb (list_byte_of_string b) (list_byte_of_string a)) eqn:Hba.
    + now apply bytes_ltb_asym.
    + destruct (bytes_ltb (list_byte_of_string a) (list_byte_of_string b)) eqn:Hab;
        [reflexivity|].
      apply String.eqb_neq in He. exfalso. apply He.
      apply list_byte_of_string_inj. now apply bytes_ltb_total.
Qed.

(** Bounds in the wrong order leave the range empty. *)
Lemma in_range_invalid (beg end_ k : string) :
  string_gtb beg end_ && nonempty end_ = true -> in_range beg end_ k = false.
Proof.
  unfold string_gtb, in_range. intro H. apply andb_true_iff in H.
  destruct H as [Hlt Hne]. rewrite Hne. simpl.
  destruct (string_ltb k end_) eqn:Hk; [|apply andb_false_r].
  now rewrite (string_ltb_trans _ _ _ Hk Hlt).
Qed.

Lemma range_invalid_empty (beg end_ : string) (l : list Item) :
  string_gtb beg end_ && nonempty end_ = true ->
  filter (fun i => in_range beg end_ (Item_name i)) l = [].
Proof.
  intro H. apply filter_none. apply Forall_forall. intros i _.
  now apply in_range_invalid.
Qed.

(** Where the forward cursor stands when the loop of [Ascend] starts. *)
Lemma ascend_start (l : list Item) (beg : string) :
  StronglySorted Item_lt l ->
  let it := Iterator_Rewind
              {| it_opt := DefaultIteratorOptions; it_table := l; it_cursor := [] |} in
  it_cursor (if nonempty beg then Iterator_Seek it (list_byte_of_string beg) else it)
  = filter (from beg) l.
Proof.
  intros Hs it. subst it. destruct (nonempty beg) eqn:Hne; simpl.
  - unfold it_order. simpl.
    rewrite (dropWhile_sorted (R := Item_lt)); [|exact Hs|].
    + apply filter_ext. intro i. unfold from, string_ltb, Item_name.
      now rewrite list_byte_of_string_of_list_byte.
    + intros x y Hxy Hy. eapply bytes_ltb_trans; eauto.
  - unfold it_order. simpl. symmetry. apply filter_all.
    apply Forall_forall. intros i _. unfold from.
    rewrite (nonempty_false _ Hne), string_ltb_empty. reflexivity.
Qed.

(** Where the reverse cursor stands when the loop of [Descend] starts:
    on the largest key that is not above [end_]. *)
Lemma descend_start (l : list Item) (end_ : string) :
  StronglySorted Item_lt l ->
  let it := Iterator_Rewind
              {| it_opt := {| Reverse := true |}; it_table := l; it_cursor := [] |} in
  it_cursor (if nonempty end_ then Iterator_Seek it (list_byte_of_string end_) else it)
  = filter (fun i => negb (nonempty end_ && string_ltb end_ (Item_name i))) (rev l).
Proof.
  intros Hs it. subst it. destruct (nonempty end_) eqn:Hne; simpl.
  - unfold it_order. simpl.
    rewrite (dropWhile_sorted (R := fun i j => Item_lt j i));
      [|now apply StronglySorted_rev|].
    + apply filter_ext. intro i. unfold string_ltb, Item_name.
      now rewrite list_byte_of_string_of_list_byte.
    + intros x y Hyx Hy. eapply bytes_ltb_trans; eauto.
  - unfold it_order. simpl. symmetry. apply filter_all.
    apply Forall_forall. intros i _. reflexivity.
Qed.

Lemma descend_range (beg end_ : string) (i : Item) :
  negb (nonempty end_ && string_ltb end_ (Item_name i)) && kept beg end_ i
  = in_range beg end_ (Item_name i).
Proof.
  unfold kept, in_range.
  assert (Hb : nonempty beg && string_ltb (Item_name i) beg
               = string_ltb (Item_name i) beg).
  { destruct (nonempty beg) eqn:Hne; [reflexivity|].
    rewrite (nonempty_false _ Hne), string_ltb_empty. reflexivity. }
  rewrite Hb. destruct (nonempty end_); simpl.
  - rewrite (string_trichotomy (Item_name i) end_).
    destruct (string_ltb end_ (Item_name i)), (String.eqb (Item_name i) end_),
      (string_ltb (Item_name i) beg); reflexivity.
  - now rewrite andb_true_r.
Qed.

Lemma range_names (beg end_ : string) (l : list Item) :
  Forall readable (filter (fun i => in_range beg end_ (Item_name i)) l) ->
  map fst (entry_pairs (filter (fun i => in_range beg end_ (Item_name i)) l))
  = filter (in_range beg end_) (map Item_name l).
Proof.
  intro Hr. rewrite entry_pairs_names by exact Hr.
  symmetry. apply filter_map_comm.
Qed.

Lemma names_sorted (l : list Item) :
  StronglySorted Item_lt l -> StronglySorted string_lt (map Item_name l).
Proof.
  intro Hs. apply StronglySorted_map.
  eapply StronglySorted_ind with (P := StronglySorted _); [constructor| |exact Hs].
  intros i l' _ IH Hi. constructor; [exact IH|].
  eapply Forall_impl; [|exact Hi]. intros j Hij.
  unfold string_lt. now rewrite Item_name_ltb.
Qed.

(** ** Ascend and Descend *)

(** Claim C4.  On a handle whose engine transaction is open and shows
    the entries [l], those in the range readable, [Ascend(beg, end_)] hands to its
    consumer exactly the entries whose key [k] satisfies
    [beg <= k < end_] (an empty [end_] is no bound), in the order of the
    store, which is strictly increasing: it starts from the first key
    that is not below [beg] and stops at the first key that is not below
    a non-empty [end_].  The consumer gets them one by one until it
    declines; the one that collects everything gets them all.  The error
    slot is left as it was unless the bounds are in the wrong order. *)
Theorem Ascend_yields_range (E : Engine) (C : EngineContract E)
  (t : txn) (l : list Item) (beg end_ : string)
  (S : Type) (yield : Yield S) (s : S) (errp : option error) :
  Txn_entries (txn_tx t) = Some l ->
  Forall readable (filter (fun i => in_range beg end_ (Item_name i)) l) ->
  let ys := entry_pairs (filter (fun i => in_range beg end_ (Item_name i)) l) in
  let errp' := if string_gtb beg end_ && nonempty end_ then Some ErrInvalid else errp in
  txn_Ascend t beg end_ yield s errp = Returns (feed yield s ys, errp')
  /\ txn_Ascend t beg end_ collect [] errp = Returns (ys, errp')
  /\ map fst ys = filter (in_range beg end_) (map Item_name l)
  /\ StronglySorted string_lt (map fst ys).
Proof.
  intros Hl Hr ys errp'.
  pose proof (entries_sorted _ Hl) as Hs.
  assert (Hrun : forall (S' : Type) (y : Yield S') (s0 : S'),
             txn_Ascend t beg end_ y s0 errp = Returns (feed y s0 ys, errp')).
  { intros S' y s0. unfold txn_Ascend, errp', ys.
    destruct (string_gtb beg end_ && nonempty end_) eqn:Hbad.
    - now rewrite range_invalid_empty.
    - unfold Txn_NewIterator. rewrite Hl. lazy beta iota zeta.
      pose proof (ascend_start beg Hs) as Hcur. lazy zeta in Hcur. rewrite Hcur.
      rewrite ascend_loop_sorted.
      + now rewrite filter_and.
      + now apply StronglySorted_filter.
      + now rewrite filter_and. }
  split; [apply Hrun|]. split; [|split].
  - rewrite Hrun. now rewrite feed_collect.
  - now apply range_names.
  - unfold ys. rewrite range_names by exact Hr. rewrite filter_map_comm.
    apply names_sorted. now apply StronglySorted_filter.
Qed.

Lemma Ascend_yields_range_witness :
  EngineContract Mem.engine
  /\ Txn_entries (txn_tx mem_txn) = Some (Mem.view (Mem.writes (txn_tx mem_txn)))
  /\ Forall readable
       (filter (fun i => in_range "b" "d" (Item_name i))
          (Mem.view (Mem.writes (txn_tx mem_txn))))
  /\ txn_Ascend mem_txn "b" "d" collect [] None
     = Returns ([("b", bytes_NewReader (Mem.b "b")); ("c", bytes_NewReader (Mem.b "c"))],
                None).
Proof.
  assert (Hr : Forall readable
                 (filter (fun i => in_range "b" "d" (Item_name i))
                    (Mem.view (Mem.writes (txn_tx mem_txn)))))
    by apply Forall_filter, view_readable.
  split; [exact Mem_contract|]. split; [reflexivity|]. split; [exact Hr|].
  exact (proj1 (proj2 (Ascend_yields_range Mem_contract mem_txn "b" "d"
                         collect [] None eq_refl Hr))).
Defined.

(** Claim C3.  On a handle whose engine transaction is open and shows
    the entries [l], those in the range readable, [Descend(beg, end_)] hands to its
    consumer exactly the entries whose key [k] satisfies
    [beg <= k < end_] (an empty [end_] is no bound), from the largest to
    the smallest, which is strictly decreasing: the reverse cursor starts
    on the largest key that is not above a non-empty [end_], a key equal
    to [end_] is passed over, and the run stops at the first key below a
    non-empty [beg]. *)
Theorem Descend_yields_range (E : Engine) (C : EngineContract E)
  (t : txn) (l : list Item) (beg end_ : string)
  (S : Type) (yield : Yield S) (s : S) (errp : option error) :
  Txn_entries (txn_tx t) = Some l ->
  Forall readable (filter (fun i => in_range beg end_ (Item_name i)) l) ->
  let ys := entry_pairs (rev (filter (fun i => in_range beg end_ (Item_name i)) l)) in
  let errp' := if string_gtb beg end_ && nonempty end_ then Some ErrInvalid else errp in
  txn_Descend t beg end_ yield s errp = Returns (feed yield s ys, errp')
  /\ txn_Descend t beg end_ collect [] errp = Returns (ys, errp')
  /\ map fst ys = rev (filter (in_range beg end_) (map Item_name l))
  /\ StronglySorted string_gt (map fst ys).
Proof.
  intros Hl Hr ys errp'.
  pose proof (entries_sorted _ Hl) as Hs.
  assert (Hrun : forall (S' : Type) (y : Yield S') (s0 : S'),
             txn_Descend t beg end_ y s0 errp = Returns (feed y s0 ys, errp')).
  { intros S' y s0. unfold txn_Descend, errp', ys.
    destruct (string_gtb beg end_ && nonempty end_) eqn:Hbad.
    - now rewrite range_invalid_empty.
    - unfold Txn_NewIterator. rewrite Hl. lazy beta iota zeta.
      pose proof (descend_start end_ Hs) as Hcur. lazy zeta in Hcur. rewrite Hcur.
      rewrite descend_loop_sorted.
      + rewrite filter_and, <- filter_rev.
        now rewrite (filter_ext _ _ (descend_range beg end_) (rev l)).
      + apply StronglySorted_filter. now apply StronglySorted_rev.
      + rewrite filter_and, (filter_ext _ _ (descend_range beg end_) (rev l)),
          filter_rev.
        now apply Forall_rev. }
  assert (Hnames : map fst ys = rev (filter (in_range beg end_) (map Item_name l))).
  { unfold ys. rewrite entry_pairs_rev, map_rev. f_equal. now apply range_names. }
  split; [apply Hrun|]. split; [|split].
  - rewrite Hrun. now rewrite feed_collect.
  - exact Hnames.
  - rewrite Hnames, filter_map_comm, <- map_rev.
    apply StronglySorted_map.
    apply StronglySorted_rev with (R := fun i j => string_lt (Item_name i) (Item_name j)).
    apply StronglySorted_filter.
    eapply StronglySorted_ind with (P := StronglySorted _); [constructor| |exact Hs].
    intros i l' _ IH Hi. constructor; [exact IH|].
    eapply Forall_impl; [|exact Hi]. intros j Hij.
    unfold string_lt. now rewrite Item_name_ltb.
Qed.

Lemma Descend_yields_range_witness :
  EngineContract Mem.engine
  /\ Txn_entries (txn_tx mem_txn) = Some (Mem.view (Mem.writes (txn_tx mem_txn)))
  /\ Forall readable
       (filter (fun i => in_range "b" "d" (Item_name i))
          (Mem.view (Mem.writes (txn_tx mem_txn))))
  /\ txn_Descend mem_txn "b" "d" collect [] None
     = Returns ([("c", bytes_NewReader (Mem.b "c")); ("b", bytes_NewReader (Mem.b "b"))],
                None).
Proof.
  assert (Hr : Forall readable
                 (filter (fun i => in_range "b" "d" (Item_name i))
                    (Mem.view (Mem.writes (txn_tx mem_txn)))))
    by apply Forall_filter, view_readable.
  split; [exact Mem_contract|]. split; [reflexivity|]. split; [exact Hr|].
  exact (proj1 (proj2 (Descend_yields_range Mem_contract mem_txn "b" "d"
                         collect [] None eq_refl Hr))).
Defined.

(** Claim C5.  When both bounds are given and [beg] is above [end_],
    [Ascend] and [Descend] put [os.ErrInvalid] in the error slot and
    return at once: the consumer is left in the state it was in, for any
    consumer, so nothing was handed to it, and the one that collects
    ends with the empty list.  This holds for every handle and engine:
    the bounds are looked at before the engine is. *)
Theorem range_bounds_invalid (E : Engine) (t : txn) (beg end_ : string)
  (S : Type) (yield : Yield S) (s : S) (errp : option error) :
  beg <> "" -> end_ <> "" -> string_gt beg end_ ->
  txn_Ascend t beg end_ yield s errp = Returns (s, Some ErrInvalid)
  /\ txn_Descend t beg end_ yield s errp = Returns (s, Some ErrInvalid)
  /\ txn_Ascend t beg end_ collect [] errp = Returns ([], Some ErrInvalid)
  /\ txn_Descend t beg end_ collect [] errp = Returns ([], Some ErrInvalid).
Proof.
  intros _ Hend Hgt. apply nonempty_true in Hend.
  unfold txn_Ascend, txn_Descend, string_gtb.
  unfold string_gt, string_lt in Hgt. rewrite Hgt, Hend. simpl.
  repeat split; reflexivity.
Qed.

Lemma range_bounds_invalid_witness :
  "d" <> "" /\ "b" <> "" /\ string_gt "d" "b"
  /\ txn_Ascend mem_txn "d" "b" collect [] None = Returns ([], Some ErrInvalid)
  /\ txn_Descend mem_txn "d" "b" collect [] None = Returns ([], Some ErrInvalid).
Proof.
  assert (H1 : "d" <> "") by discriminate.
  assert (H2 : "b" <> "") by discriminate.
  assert (H3 : string_gt "d" "b") by reflexivity.
  split; [exact H1|]. split; [exact H2|]. split; [exact H3|].
  exact (proj2 (proj2 (range_bounds_invalid mem_txn collect [] None H1 H2 H3))).
Defined.

(** ** The end of a handle *)

Lemma finish_done (E : Engine) (f : finisher) (t : txn) :
  txn_db (fst (finish f t)) = None.
Proof.
  destruct f; simpl; unfold txn_Commit, txn_discard;
    destruct (txn_db t) eqn:Hdb; simpl; auto.
  now destruct (Txn_Commit (txn_tx t)).
Qed.

Lemma done_finish (E : Engine) (f : finisher) (t : txn) :
  txn_db t = None -> finish f t = (t, Some ErrTxDone).
Proof.
  intro H. destruct f; simpl; unfold txn_Commit, txn_discard; now rewrite H.
Qed.

Lemma done_Set (E : Engine) (t : txn) (k : string) (v : option Reader) :
  txn_db t = None -> txn_Set t k v = Returns (t, Some ErrTxDone).
Proof. intro H. unfold txn_Set. now rewrite H. Qed.

Lemma done_Delete (E : Engine) (t : txn) (k : string) :
  txn_db t = None -> txn_Delete t k = (t, Some ErrTxDone).
Proof. intro H. unfold txn_Delete. now rewrite H. Qed.

(** [Get] does not look at the mark of the handle. *)
Lemma Get_ignores_mark (E : Engine) (t : txn) (d : option Database) (k : string) :
  txn_Get {| txn_db := d; txn_tx := txn_tx t |} k = txn_Get t k.
Proof. reflexivity. Qed.

(** Nor do the three ways of going through the store. *)
Lemma iteration_ignores_mark (E : Engine) (t : txn) (d : option Database)
  (beg end_ : string) (S : Type) (yield : Yield S) (s : S) (errp : option error) :
  let t' := {| txn_db := d; txn_tx := txn_tx t |} in
  txn_Scan t' yield s errp = txn_Scan t yield s errp
  /\ txn_Ascend t' beg end_ yield s errp = txn_Ascend t beg end_ yield s errp
  /\ txn_Descend t' beg end_ yield s errp = txn_Descend t beg end_ yield s errp.
Proof. repeat split; reflexivity. Qed.

Lemma done_run_calls (E : Engine) (cs : list call) (t : txn) :
  txn_db t = None -> run_calls cs t = Returns t.
Proof.
  intro H. induction cs as [|c cs IH]; simpl; [reflexivity|].
  destruct c; simpl.
  - unfold txn_Commit. now rewrite H.
  - unfold txn_discard. now rewrite H.
  - exact IH.
  - now rewrite done_Set.
  - now rewrite done_Delete.
Qed.

(** Claim C6.  Whichever of [Commit] and [Rollback] comes first on a
    handle marks it done, whether the engine accepted the commit or not.
    From then on the handle stays exactly as it is under any run of
    [Commit], [Rollback], [Get], [Set] and [Delete], and a later [Commit]
    or [Rollback] returns [sql.ErrTxDone] and leaves the handle, and so
    the engine transaction behind it, untouched: the engine is asked to
    commit or to discard at most once. *)
Theorem finish_at_most_once (E : Engine) (t : txn) (f1 f2 : finisher) (cs : list call) :
  let t1 := fst (finish f1 t) in
  txn_db t1 = None
  /\ run_calls cs t1 = Returns t1
  /\ finish f2 t1 = (t1, Some ErrTxDone)
  /\ Transaction_Commit {| Transaction_txn := t1 |}
     = ({| Transaction_txn := t1 |}, Some ErrTxDone)
  /\ Transaction_Rollback {| Transaction_txn := t1 |}
     = ({| Transaction_txn := t1 |}, Some ErrTxDone).
Proof.
  intro t1. assert (Hd : txn_db t1 = None) by apply finish_done.
  split; [exact Hd|]. split; [now apply done_run_calls|].
  split; [now apply done_finish|]. split.
  - pose proof (done_finish DoCommit t1 Hd) as Hc. cbn [finish] in Hc.
    unfold Transaction_Commit, on_Transaction. cbn [Transaction_txn].
    now rewrite Hc.
  - pose proof (done_finish DoRollback t1 Hd) as Hc. cbn [finish] in Hc.
    unfold Transaction_Rollback. cbn [Transaction_txn].
    now rewrite Hc.
Qed.

(** ** Point operations *)


Lemma Delete_forwarded (E : Engine) (t : txn) (d : Database) (k : string) :
  txn_db t = Some d ->
  txn_Delete t k
  = (with_tx t (fst (Txn_Delete (txn_tx t) (list_byte_of_string k))),
     passthrough (snd (Txn_Delete (txn_tx t) (list_byte_of_string k)))).
Proof.
  intro Hdb. unfold txn_Delete, with_tx, passthrough. rewrite Hdb.
  destruct (Txn_Delete (txn_tx t) (list_byte_of_string k)) as [tx' [err|]]; simpl;
    [destruct (errors_Is err ErrKeyNotFound)|]; reflexivity.
Qed.

Lemma Set_forwarded (E : Engine) (t : txn) (d : Database) (k : string)
  (r : Reader) (data : list byte) :
  txn_db t = Some d -> io_ReadAll r = (data, None) ->
  txn_Set t k (Some r)
  = Returns (with_tx t (fst (Txn_Set (txn_tx t) (list_byte_of_string k) data)),
             snd (Txn_Set (txn_tx t) (list_byte_of_string k) data)).
Proof.
  intros Hdb Hr. unfold txn_Set, with_tx. rewrite Hdb, Hr.
  now destruct (Txn_Set (txn_tx t) (list_byte_of_string k) data).
Qed.

Lemma Commit_forwarded (E : Engine) (t : txn) (d : Database) :
  txn_db t = Some d ->
  txn_Commit t
  = ({| txn_db := None; txn_tx := fst (Txn_Commit (txn_tx t)) |},
     snd (Txn_Commit (txn_tx t))).
Proof.
  intro Hdb. unfold txn_Commit. rewrite Hdb.
  now destruct (Txn_Commit (txn_tx t)).
Qed.





(** On the store in memory an open read-write transaction takes every
    write that the engine's checks let through, and gives it back. *)
Lemma Mem_Set_then_Get (t : txn (E := Mem.engine)) (d : Database (E := Mem.engine))
  (k : string) (data : list byte) :
  txn_db t = Some d ->
  Mem.update (txn_tx t) = true ->
  Mem.discarded (txn_tx t) = false ->
  Mem.refused (list_byte_of_string k) (Some data) = None ->
  exists t' : txn (E := Mem.engine),
    txn_Set t k (Some (bytes_NewReader data)) = Returns (t', None)
    /\ txn_Get t' k = inl (bytes_NewReader data).
Proof.
  intros Hdb Hu Hd Hk.
  set (tx' := {| Mem.update := Mem.update (txn_tx t);
                 Mem.discarded := Mem.discarded (txn_tx t);
                 Mem.writes := (list_byte_of_string k, Some data)
                               :: Mem.writes (txn_tx t) |}).
  assert (Hs : Mem.Set_ (txn_tx t) (list_byte_of_string k) data = (tx', None)).
  { unfold Mem.Set_, Mem.modify, tx'. now rewrite Hu, Hd, Hk. }
  exists (with_tx t tx'). split.
  - rewrite (@Set_forwarded Mem.engine t d k (bytes_NewReader data) data Hdb eq_refl).
    simpl. now rewrite Hs.
  - unfold txn_Get. simpl.
    pose proof (@Get_after_Set _ Mem_contract _ _ _ _ Hs) as Hg. simpl in Hg.
    now rewrite Hg.
Qed.

(** Claim C10.  [Set], [Delete] and [Commit] on an active [Snapshot] are
    the methods of the embedded [txn]: once the value is read, [Set]
    hands key and value to the engine's [Set] and returns its answer,
    [Delete] hands the key to the engine's [Delete] and returns its
    answer (with "key not found" turned into [os.ErrNotExist]), [Commit]
    marks the handle done and returns the answer of the engine's
    [Commit].  The results are those of the same calls on a
    [Transaction] over the same state.  No answer comes from a check of
    the adapter. *)
Theorem Snapshot_mutations_forwarded (E : Engine) (s : Snapshot) (d : Database)
  (k : string) (r : Reader) (data : list byte) :
  txn_db (Snapshot_txn s) = Some d ->
  io_ReadAll r = (data, None) ->
  let t := Snapshot_txn s in
  let key := list_byte_of_string k in
  Snapshot_Set s k (Some r)
  = Returns ({| Snapshot_txn := with_tx t (fst (Txn_Set (txn_tx t) key data)) |},
             snd (Txn_Set (txn_tx t) key data))
  /\ Snapshot_Delete s k
     = ({| Snapshot_txn := with_tx t (fst (Txn_Delete (txn_tx t) key)) |},
        passthrough (snd (Txn_Delete (txn_tx t) key)))
  /\ Snapshot_Commit s
     = ({| Snapshot_txn := {| txn_db := None; txn_tx := fst (Txn_Commit (txn_tx t)) |} |},
        snd (Txn_Commit (txn_tx t)))
  /\ Transaction_Set (as_Transaction s) k (Some r)
     = match Snapshot_Set s k (Some r) with
       | Returns (s', err) => Returns (as_Transaction s', err)
       | Panics => Panics
       end
  /\ Transaction_Delete (as_Transaction s) k
     = (as_Transaction (fst (Snapshot_Delete s k)), snd (Snapshot_Delete s k))
  /\ Transaction_Commit (as_Transaction s)
     = (as_Transaction (fst (Snapshot_Commit s)), snd (Snapshot_Commit s)).
Proof.
  intros Hdb Hr t key.
  unfold Snapshot_Set, Snapshot_Delete, Snapshot_Commit,
    Transaction_Set, Transaction_Delete, Transaction_Commit,
    on_Snapshot, on_Transaction, as_Transaction. cbn [Snapshot_txn Transaction_txn].
  fold t.
  rewrite (@Set_forwarded E t d k r data Hdb Hr), (@Delete_forwarded E t d k Hdb),
    (@Commit_forwarded E t d Hdb).
  repeat split; reflexivity.
Qed.

Lemma Snapshot_mutations_forwarded_witness :
  txn_db (Snapshot_txn mem_snapshot) = Some mem_database
  /\ io_ReadAll (bytes_NewReader (Mem.b "v")) = (Mem.b "v", None)
  /\ Snapshot_Set mem_snapshot "k" (Some (bytes_NewReader (Mem.b "v")))
     = Returns (mem_snapshot, Some ErrReadOnlyTxn).
Proof.
  split; [reflexivity|]. split; [reflexivity|].
  exact (proj1 (Snapshot_mutations_forwarded mem_snapshot (d := mem_database) "k"
                  (r := bytes_NewReader (Mem.b "v")) eq_refl eq_refl)).
Defined.

(** ** Calls the adapter does not check *)

Lemma active_Set_nil (E : Engine) (t : txn) (d : Database) (k : string) :
  txn_db t = Some d -> txn_Set t k None = Panics.
Proof. intro H. unfold txn_Set. now rewrite H. Qed.


(** Claim C1, at a rolled-back transaction on the store in memory.  The
    handle is marked done.  [Set] and [Delete] look at the mark and
    return [sql.ErrTxDone].  [Get] does not: it asks the engine, and
    returns the engine's error for a discarded transaction, which is not
    [sql.ErrTxDone].  [Scan], [Ascend] and [Descend] do not either: they
    open an iterator on the discarded transaction, which panics. *)
Theorem done_handle_reads_unchecked :
  txn_db mem_rolled_back = None
  /\ txn_Set mem_rolled_back "a" (Some (bytes_NewReader (Mem.b "1")))
     = Returns (mem_rolled_back, Some ErrTxDone)
  /\ txn_Delete mem_rolled_back "a" = (mem_rolled_back, Some ErrTxDone)
  /\ txn_Get mem_rolled_back "a" = inr ErrDiscardedTxn
  /\ ~ fails_with (Get_error (txn_Get mem_rolled_back "a")) ErrTxDone
  /\ ~ fails_with (Get_error (txn_Get mem_committed "a")) ErrTxDone
  /\ txn_Scan mem_rolled_back collect [] None = Panics
  /\ txn_Ascend mem_rolled_back "" "" collect [] None = Panics
  /\ txn_Descend mem_rolled_back "" "" collect [] None = Panics.
Proof.
  repeat split; try reflexivity; intro H; discriminate H.
Qed.




(** Claim C7, at an active transaction on the store in memory.  [Set]
    with a nil stream does not return an error: it reads the stream
    without looking at it, and reading a nil stream panics.  A stream of
    no bytes is read and stored, and [Get] gives it back. *)
Theorem Set_nil_value_panics :
  txn_db mem_txn = Some mem_database
  /\ txn_Set mem_txn "k" None = Panics
  /\ txn_Set mem_txn "k" (Some (bytes_NewReader [])) = Returns (mem_txn_k, None)
  /\ txn_Get mem_txn_k "k" = inl (bytes_NewReader []).
Proof.
  repeat split; reflexivity.
Qed.

(* ================================================================== *)
(** * Further properties *)

(** ** The three runs as one loop *)

Lemma ascend_loop_scan (S : Type) (yield : Yield S) (end_ : string)
  (cur : list Item) (s : S) (errp : option error) :
  StronglySorted Item_lt cur ->
  ascend_loop end_ yield cur s errp
  = scan_loop yield (filter (below end_) cur) s errp.
Proof.
  intros Hs. revert s. induction Hs as [|i cur Hs IH Hi]; intro s; simpl.
  - reflexivity.
  - fold (Item_name i). rewrite ascend_stop.
    destruct (below end_ i) eqn:Hb; simpl.
    + fold (Item_name i). destruct (Item_value i) as [data|err]; [|reflexivity].
      destruct (yield s (Item_name i) (bytes_NewReader data)) as [s' more].
      destruct more; [apply IH|reflexivity].
    + rewrite filter_none; [reflexivity|].
      unfold below in Hb. apply orb_false_iff in Hb. destruct Hb as [Hne Hlt].
      eapply Forall_impl; [|exact Hi]. intros j Hij. unfold below. rewrite Hne. simpl.
      destruct (string_ltb (Item_name j) end_) eqn:Hj; [|reflexivity].
      unfold Item_lt, bytes_lt in Hij. rewrite <- Item_name_ltb in Hij.
      rewrite (string_ltb_trans _ _ _ Hij Hj) in Hlt. discriminate.
Qed.

Lemma descend_loop_scan (S : Type) (yield : Yield S) (beg end_ : string)
  (cur : list Item) (s : S) (errp : option error) :
  StronglySorted (fun i j => Item_lt j i) cur ->
  descend_loop beg end_ yield cur s errp
  = scan_loop yield (filter (kept beg end_) cur) s errp.
Proof.
  intros Hs. revert s. induction Hs as [|i cur Hs IH Hi]; intro s; simpl.
  - reflexivity.
  - fold (Item_name i). unfold kept at 1.
    destruct (nonempty end_ && String.eqb (Item_name i) end_) eqn:Heq; simpl;
      [apply IH|].
    destruct (nonempty beg && string_ltb (Item_name i) beg) eqn:Hlow; simpl.
    + rewrite filter_none; [reflexivity|].
      apply andb_true_iff in Hlow. destruct Hlow as [Hne Hlt].
      eapply Forall_impl; [|exact Hi]. intros j Hji. unfold kept.
      unfold Item_lt, bytes_lt in Hji. rewrite <- Item_name_ltb in Hji.
      rewrite Hne, (string_ltb_trans _ _ _ Hji Hlt). simpl.
      apply andb_false_r.
    + fold (Item_name i). destruct (Item_value i) as [data|err]; [|reflexivity].
      destruct (yield s (Item_name i) (bytes_NewReader data)) as [s' more].
      destruct more; [apply IH|reflexivity].
Qed.

Lemma Scan_run (E : Engine) (t : txn) (l : list Item)
  (S : Type) (yield : Yield S) (s : S) (errp : option error) :
  Txn_entries (txn_tx t) = Some l ->
  txn_Scan t yield s errp = Returns (scan_loop yield l s errp).
Proof.
  intro Hl. unfold txn_Scan, Txn_NewIterator. now rewrite Hl.
Qed.

Lemma Ascend_run (E : Engine) (t : txn) (l : list Item) (beg end_ : string)
  (S : Type) (yield : Yield S) (s : S) (errp : option error) :
  Txn_entries (txn_tx t) = Some l ->
  StronglySorted Item_lt l ->
  string_gtb beg end_ && nonempty end_ = false ->
  txn_Ascend t beg end_ yield s errp
  = Returns (scan_loop yield (in_bounds beg end_ l) s errp).
Proof.
  intros Hl Hs Hok. unfold txn_Ascend, in_bounds. rewrite Hok.
  unfold Txn_NewIterator. rewrite Hl. lazy beta iota zeta.
  pose proof (ascend_start beg Hs) as Hcur. lazy zeta in Hcur. rewrite Hcur.
  rewrite ascend_loop_scan by now apply StronglySorted_filter.
  now rewrite filter_and.
Qed.

Lemma Descend_run (E : Engine) (t : txn) (l : list Item) (beg end_ : string)
  (S : Type) (yield : Yield S) (s : S) (errp : option error) :
  Txn_entries (txn_tx t) = Some l ->
  StronglySorted Item_lt l ->
  string_gtb beg end_ && nonempty end_ = false ->
  txn_Descend t beg end_ yield s errp
  = Returns (scan_loop yield (rev (in_bounds beg end_ l)) s errp).
Proof.
  intros Hl Hs Hok. unfold txn_Descend, in_bounds. rewrite Hok.
  unfold Txn_NewIterator. rewrite Hl. lazy beta iota zeta.
  pose proof (descend_start end_ Hs) as Hcur. lazy zeta in Hcur. rewrite Hcur.
  rewrite descend_loop_scan
    by (apply StronglySorted_filter; now apply StronglySorted_rev).
  rewrite filter_and, (filter_ext _ _ (descend_range beg end_) (rev l)).
  now rewrite filter_rev.
Qed.

Lemma scan_loop_readable (S : Type) (yield : Yield S) (l : list Item)
  (s : S) (errp : option error) :
  Forall readable l ->
  scan_loop yield l s errp = (feed yield s (entry_pairs l), errp).
Proof.
  intro Hr. revert s. induction Hr as [|i l [data Hd] _ IH]; intro s; simpl.
  - reflexivity.
  - fold (Item_name i). rewrite Hd. simpl.
    destruct (yield s (Item_name i) (bytes_NewReader data)) as [s' more].
    destruct more; [apply IH|reflexivity].
Qed.

(** The loop stops at the first entry it cannot read. *)
Lemma scan_loop_collect_error (l1 l2 : list Item) (i : Item) (e : error)
  (acc : list (string * Reader)) (errp : option error) :
  Forall readable l1 -> Item_value i = inr e ->
  scan_loop collect (l1 ++ i :: l2) acc errp = (acc ++ entry_pairs l1, Some e).
Proof.
  intros Hr Hi. revert acc. induction Hr as [|j l1 [data Hd] _ IH]; intro acc; simpl.
  - rewrite Hi. now rewrite app_nil_r.
  - rewrite Hd. rewrite IH. now rewrite <- app_assoc.
Qed.

(** The loop reads nothing past the pair at which the consumer declines. *)
Lemma scan_loop_first_n (l1 l2 : list Item)
  (acc : list (string * Reader)) (n : nat) (errp : option error) :
  Forall readable l1 -> l1 <> [] ->
  n = (List.length acc + List.length l1)%nat ->
  scan_loop (first_n n) (l1 ++ l2) acc errp = (acc ++ entry_pairs l1, errp).
Proof.
  intros Hr. revert acc. induction Hr as [|j l1 [data Hd] Hr IH]; intros acc Hne Hn.
  - congruence.
  - simpl. rewrite Hd. fold (Item_name j). unfold first_n at 1.
    destruct (Datatypes.S (List.length acc) <? n)%nat eqn:Hlt.
    + apply Nat.ltb_lt in Hlt. simpl in Hn.
      rewrite IH.
      * now rewrite <- app_assoc.
      * intro Hnil. subst l1. simpl in Hn. lia.
      * rewrite length_app. simpl. lia.
    + apply Nat.ltb_ge in Hlt. simpl in Hn.
      destruct l1 as [|j' l1']; [reflexivity|]. simpl in Hn. lia.
Qed.

Lemma ascend_loop_unbounded (S : Type) (yield : Yield S) (cur : list Item)
  (s : S) (errp : option error) :
  ascend_loop "" yield cur s errp = scan_loop yield cur s errp.
Proof.
  revert s. induction cur as [|i cur IH]; intro s; simpl; [reflexivity|].
  destruct (Item_value i) as [data|err]; [|reflexivity].
  destruct (yield s (string_of_list_byte (Item_key i)) (bytes_NewReader data))
    as [s' more].
  destruct more; [apply IH|reflexivity].
Qed.

Lemma string_lt_le_trans (a b c : string) :
  string_ltb a b = true -> string_ltb c b = false -> string_ltb a c = true.
Proof.
  unfold string_ltb. intros Hab Hcb.
  destruct (bytes_ltb (list_byte_of_string b) (list_byte_of_string c)) eqn:Hbc.
  - eapply bytes_ltb_trans; eauto.
  - now rewrite <- (bytes_ltb_total _ _ Hbc Hcb).
Qed.

Lemma string_le_lt_trans (a b c : string) :
  string_ltb b a = false -> string_ltb b c = true -> string_ltb a c = true.
Proof.
  unfold string_ltb. intros Hba Hbc.
  destruct (bytes_ltb (list_byte_of_string a) (list_byte_of_string b)) eqn:Hab.
  - eapply bytes_ltb_trans; eauto.
  - now rewrite (bytes_ltb_total _ _ Hab Hba).
Qed.

Lemma in_bounds_sorted (beg end_ : string) (l : list Item) :
  StronglySorted Item_lt l -> StronglySorted Item_lt (in_bounds beg end_ l).
Proof. apply StronglySorted_filter. Qed.

Lemma in_bounds_same (k : string) (l : list Item) :
  nonempty k = true -> in_bounds k k l = [].
Proof.
  intro Hk. apply filter_none. apply Forall_forall. intros i _. unfold in_range.
  rewrite Hk. now destruct (string_ltb (Item_name i) k).
Qed.

(** Two ranges that meet at [mid] make up the range around them. *)
Lemma in_bounds_join (a mid c : string) (l : list Item) :
  StronglySorted Item_lt l ->
  nonempty mid = true ->
  string_ltb mid a = false ->
  nonempty c && string_ltb c mid = false ->
  in_bounds a mid l ++ in_bounds mid c l = in_bounds a c l.
Proof.
  intros Hs Hm Ham Hmc. unfold in_bounds.
  induction Hs as [|i l Hs IH Hi]; [reflexivity|].
  destruct (string_ltb (Item_name i) mid) eqn:Him.
  - (* below the meeting point *)
    assert (H2 : in_range mid c (Item_name i) = false)
      by (unfold in_range; now rewrite Him).
    assert (H3 : in_range a c (Item_name i) = in_range a mid (Item_name i)).
    { unfold in_range. rewrite Him, Hm. simpl. f_equal.
      destruct (nonempty c) eqn:Hc; simpl; [|reflexivity].
      simpl in Hmc. exact (string_lt_le_trans _ _ _ Him Hmc). }
    simpl. rewrite H2, H3.
    destruct (in_range a mid (Item_name i)); simpl; now rewrite IH.
  - (* at the meeting point or above: so is the rest *)
    assert (Hall : Forall (fun j => string_ltb (Item_name j) mid = false) (i :: l)).
    { constructor; [exact Him|].
      eapply Forall_impl; [|exact Hi]. intros j Hij.
      destruct (string_ltb (Item_name j) mid) eqn:Hj; [|reflexivity].
      unfold Item_lt, bytes_lt in Hij. rewrite <- Item_name_ltb in Hij.
      now rewrite (string_ltb_trans _ _ _ Hij Hj) in Him. }
    rewrite (filter_none (fun j => in_range a mid (Item_name j)) (l := i :: l)).
    + rewrite app_nil_l. apply filter_ext_in. intros j Hj.
      rewrite Forall_forall in Hall. specialize (Hall j Hj).
      unfold in_range. rewrite Hall. simpl.
      destruct (string_ltb (Item_name j) a) eqn:Hja; [|reflexivity].
      now rewrite (string_lt_le_trans _ _ _ Hja Ham) in Hall.
    + eapply Forall_impl; [|exact Hall]. intros j Hj. simpl in Hj.
      unfold in_range. rewrite Hj, Hm. simpl. apply andb_false_r.
Qed.

Lemma Fixed_table_sorted : StronglySorted Item_lt Fixed.table.
Proof.
  repeat (constructor; try reflexivity).
Qed.

(** ** Scan *)

(** Property X1.  [Scan] on a handle whose engine transaction is open hands the
    consumer every entry once, in the order of the iterator, as long as
    the values can be read; the error slot is left as it was. *)
Theorem Scan_yields_all (E : Engine) (t : txn) (l : list Item)
  (S : Type) (yield : Yield S) (s : S) (errp : option error) :
  Txn_entries (txn_tx t) = Some l ->
  Forall readable l ->
  txn_Scan t yield s errp = Returns (feed yield s (entry_pairs l), errp)
  /\ txn_Scan t collect [] errp = Returns (entry_pairs l, errp)
  /\ map fst (entry_pairs l) = map Item_name l.
Proof.
  intros Hl Hr. rewrite !(Scan_run _ _ _ _ Hl), !scan_loop_readable by exact Hr.
  rewrite feed_collect. repeat split. now apply entry_pairs_names.
Qed.

Lemma Scan_yields_all_witness :
  Txn_entries (txn_tx mem_txn) = Some (Mem.view (Mem.writes (txn_tx mem_txn)))
  /\ Forall readable (Mem.view (Mem.writes (txn_tx mem_txn)))
  /\ map fst (entry_pairs (Mem.view (Mem.writes (txn_tx mem_txn))))
     = ["a"; "b"; "c"; "d"; "e"].
Proof.
  split; [reflexivity|]. split; [apply view_readable|].
  exact (proj2 (proj2 (Scan_yields_all mem_txn collect [] None eq_refl
                         (view_readable _)))).
Defined.

(** Property X2.  [Ascend] with both bounds empty is [Scan]: for every engine, handle
    and consumer the two runs end the same way, a panic of the engine
    included. *)
Theorem Ascend_unbounded_is_Scan (E : Engine) (t : txn)
  (S : Type) (yield : Yield S) (s : S) (errp : option error) :
  txn_Ascend t "" "" yield s errp = txn_Scan t yield s errp.
Proof.
  unfold txn_Ascend, txn_Scan. simpl.
  destruct (Txn_NewIterator (txn_tx t) DefaultIteratorOptions) as [it|];
    [|reflexivity].
  now rewrite ascend_loop_unbounded.
Qed.

(** Property X3.  [Ascend] over a store is [Scan] over the store cut down to the
    range: for every consumer, and whether the values can be read or
    not, the two runs end the same way. *)
Theorem Ascend_is_Scan_of_range (E : Engine) (t t' : txn) (l : list Item)
  (beg end_ : string) (S : Type) (yield : Yield S) (s : S) (errp : option error) :
  Txn_entries (txn_tx t) = Some l ->
  StronglySorted Item_lt l ->
  Txn_entries (txn_tx t') = Some (in_bounds beg end_ l) ->
  string_gtb beg end_ && nonempty end_ = false ->
  txn_Ascend t beg end_ yield s errp = txn_Scan t' yield s errp.
Proof.
  intros Hl Hs Hl' Hok.
  now rewrite (@Ascend_run E t l beg end_ S yield s errp Hl Hs Hok),
    (@Scan_run E t' _ S yield s errp Hl').
Qed.

Lemma Ascend_is_Scan_of_range_witness :
  Txn_entries (txn_tx mem_txn) = Some (Mem.view (Mem.writes (txn_tx mem_txn)))
  /\ StronglySorted Item_lt (Mem.view (Mem.writes (txn_tx mem_txn)))
  /\ Txn_entries (txn_tx mem_txn_bc)
     = Some (in_bounds "b" "d" (Mem.view (Mem.writes (txn_tx mem_txn))))
  /\ string_gtb "b" "d" && nonempty "d" = false
  /\ txn_Ascend mem_txn "b" "d" collect [] None = txn_Scan mem_txn_bc collect [] None.
Proof.
  split; [reflexivity|]. split; [apply view_sorted|].
  split; [reflexivity|]. split; [reflexivity|].
  exact (Ascend_is_Scan_of_range mem_txn mem_txn_bc "b" "d" collect [] None
           eq_refl (view_sorted _) eq_refl eq_refl).
Defined.

(** ** Runs that end early *)

(** Property X4.  When the value of an entry cannot be read, [Scan] hands over the
    entries before it, puts the error of the read in the error slot and
    stops: no pair is made for the entry, and none for those after it. *)
Theorem Scan_stops_at_unreadable (E : Engine) (t : txn) (l1 l2 : list Item)
  (i : Item) (e : error) (errp : option error) :
  Txn_entries (txn_tx t) = Some (l1 ++ i :: l2) ->
  Forall readable l1 ->
  Item_value i = inr e ->
  txn_Scan t collect [] errp = Returns (entry_pairs l1, Some e).
Proof.
  intros Hl Hr Hi.
  rewrite (@Scan_run E t _ _ collect [] errp Hl).
  now rewrite (@scan_loop_collect_error l1 l2 i e [] errp Hr Hi).
Qed.

Lemma Scan_stops_at_unreadable_witness :
  Txn_entries (txn_tx fixed_txn) = Some (Fixed.a_c ++ Fixed.bad :: Fixed.c_)
  /\ Forall readable Fixed.a_c
  /\ Item_value Fixed.bad = inr (ErrOther "value log")
  /\ txn_Scan fixed_txn collect [] None
     = Returns ([("a", bytes_NewReader (Mem.b "1"))], Some (ErrOther "value log")).
Proof.
  assert (Hr : Forall readable Fixed.a_c)
    by (repeat constructor; eexists; reflexivity).
  split; [reflexivity|]. split; [exact Hr|]. split; [reflexivity|].
  exact (@Scan_stops_at_unreadable Fixed.engine fixed_txn Fixed.a_c Fixed.c_
           Fixed.bad _ None eq_refl Hr eq_refl).
Defined.

(** Property X5.  When the value of an entry in the range cannot be read, [Ascend]
    hands over the entries of the range below it and [Descend] those
    above it, from the top down; either puts the error of the read in
    the error slot and stops there. *)
Theorem range_stops_at_unreadable (E : Engine) (t : txn) (l l1 l2 : list Item)
  (i : Item) (e : error) (beg end_ : string) (errp : option error) :
  Txn_entries (txn_tx t) = Some l ->
  StronglySorted Item_lt l ->
  string_gtb beg end_ && nonempty end_ = false ->
  in_bounds beg end_ l = l1 ++ i :: l2 ->
  Item_value i = inr e ->
  (Forall readable l1 ->
   txn_Ascend t beg end_ collect [] errp = Returns (entry_pairs l1, Some e))
  /\ (Forall readable l2 ->
      txn_Descend t beg end_ collect [] errp
      = Returns (entry_pairs (rev l2), Some e)).
Proof.
  intros Hl Hs Hok Hsplit Hi. split; intro Hr.
  - rewrite (@Ascend_run E t l beg end_ _ collect [] errp Hl Hs Hok), Hsplit.
    now rewrite (@scan_loop_collect_error l1 l2 i e [] errp Hr Hi).
  - rewrite (@Descend_run E t l beg end_ _ collect [] errp Hl Hs Hok), Hsplit.
    rewrite rev_app_distr. simpl. rewrite <- app_assoc. simpl.
    assert (Hr' : Forall readable (rev l2)) by now apply Forall_rev.
    now rewrite (@scan_loop_collect_error (rev l2) (rev l1) i e [] errp Hr' Hi).
Qed.

Lemma range_stops_at_unreadable_witness :
  Txn_entries (txn_tx fixed_txn) = Some Fixed.table
  /\ StronglySorted Item_lt Fixed.table
  /\ string_gtb "a" "z" && nonempty "z" = false
  /\ in_bounds "a" "z" Fixed.table = Fixed.a_c ++ Fixed.bad :: Fixed.c_
  /\ Item_value Fixed.bad = inr (ErrOther "value log")
  /\ Forall readable Fixed.a_c
  /\ txn_Ascend fixed_txn "a" "z" collect [] None
     = Returns ([("a", bytes_NewReader (Mem.b "1"))], Some (ErrOther "value log")).
Proof.
  assert (Hr : Forall readable Fixed.a_c)
    by (repeat constructor; eexists; reflexivity).
  split; [reflexivity|]. split; [exact Fixed_table_sorted|].
  split; [reflexivity|]. split; [reflexivity|]. split; [reflexivity|].
  split; [exact Hr|].
  exact (proj1 (@range_stops_at_unreadable Fixed.engine fixed_txn Fixed.table
                  Fixed.a_c Fixed.c_ Fixed.bad _ "a" "z" None
                  eq_refl Fixed_table_sorted eq_refl eq_refl eq_refl) Hr).
Defined.

(** Property X6.  A consumer that declines ends the run at once: [Ascend] and
    [Descend] hand over the pairs up to the one at which it declined and
    read nothing further, so that a value that cannot be read further on
    leaves the error slot as it was. *)
Theorem range_stops_when_declined (E : Engine) (t : txn) (l l1 l2 : list Item)
  (beg end_ : string) (errp : option error) :
  Txn_entries (txn_tx t) = Some l ->
  StronglySorted Item_lt l ->
  string_gtb beg end_ && nonempty end_ = false ->
  in_bounds beg end_ l = l1 ++ l2 ->
  (Forall readable l1 -> l1 <> [] ->
   txn_Ascend t beg end_ (first_n (List.length l1)) [] errp
   = Returns (entry_pairs l1, errp))
  /\ (Forall readable l2 -> l2 <> [] ->
      txn_Descend t beg end_ (first_n (List.length l2)) [] errp
      = Returns (entry_pairs (rev l2), errp)).
Proof.
  intros Hl Hs Hok Hsplit. split; intros Hr Hne.
  - rewrite (@Ascend_run E t l beg end_ _ _ [] errp Hl Hs Hok), Hsplit.
    now rewrite (@scan_loop_first_n l1 l2 [] (List.length l1) errp Hr Hne eq_refl).
  - rewrite (@Descend_run E t l beg end_ _ _ [] errp Hl Hs Hok), Hsplit.
    rewrite rev_app_distr.
    assert (Hr' : Forall readable (rev l2)) by now apply Forall_rev.
    assert (Hne' : rev l2 <> [])
      by (intro H; apply Hne; rewrite <- (rev_involutive l2), H; reflexivity).
    rewrite <- (length_rev l2).
    now rewrite (@scan_loop_first_n (rev l2) (rev l1) [] (List.length (rev l2)) errp
                   Hr' Hne' eq_refl).
Qed.

Lemma range_stops_when_declined_witness :
  Txn_entries (txn_tx fixed_txn) = Some Fixed.table
  /\ StronglySorted Item_lt Fixed.table
  /\ string_gtb "" "" && nonempty "" = false
  /\ in_bounds "" "" Fixed.table = Fixed.a_c ++ (Fixed.bad :: Fixed.c_)
  /\ Forall readable Fixed.a_c
  /\ Fixed.a_c <> []
  /\ txn_Ascend fixed_txn "" "" (first_n 1) [] None
     = Returns ([("a", bytes_NewReader (Mem.b "1"))], None).
Proof.
  assert (Hr : Forall readable Fixed.a_c)
    by (repeat constructor; eexists; reflexivity).
  assert (Hne : Fixed.a_c <> []) by discriminate.
  split; [reflexivity|]. split; [exact Fixed_table_sorted|].
  split; [reflexivity|]. split; [reflexivity|]. split; [exact Hr|].
  split; [exact Hne|].
  exact (proj1 (@range_stops_when_declined Fixed.engine fixed_txn Fixed.table
                  Fixed.a_c (Fixed.bad :: Fixed.c_) "" "" None
                  eq_refl Fixed_table_sorted eq_refl eq_refl) Hr Hne).
Defined.

(** ** How the ranges fit together *)

(** Property X7.  [Descend] goes through what [Ascend] goes through, the other way
    round: over the same bounds the pairs collected from [Descend] are
    those collected from [Ascend] in reverse, and the error slot ends the
    same. *)
Theorem Descend_reverses_Ascend (E : Engine) (t : txn) (l : list Item)
  (beg end_ : string) (errp : option error) :
  Txn_entries (txn_tx t) = Some l ->
  StronglySorted Item_lt l ->
  Forall readable (in_bounds beg end_ l) ->
  exists (ps : list (string * Reader)) (errp' : option error),
    txn_Ascend t beg end_ collect [] errp = Returns (ps, errp')
    /\ txn_Descend t beg end_ collect [] errp = Returns (rev ps, errp').
Proof.
  intros Hl Hs Hr.
  destruct (string_gtb beg end_ && nonempty end_) eqn:Hok.
  - exists [], (Some ErrInvalid). unfold txn_Ascend, txn_Descend.
    rewrite Hok. now split.
  - exists (entry_pairs (in_bounds beg end_ l)), errp.
    rewrite (@Ascend_run E t l beg end_ _ collect [] errp Hl Hs Hok).
    rewrite (@Descend_run E t l beg end_ _ collect [] errp Hl Hs Hok).
    rewrite !scan_loop_readable by (exact Hr || now apply Forall_rev).
    rewrite !feed_collect, entry_pairs_rev. now split.
Qed.

Lemma Descend_reverses_Ascend_witness :
  Txn_entries (txn_tx mem_txn) = Some (Mem.view (Mem.writes (txn_tx mem_txn)))
  /\ StronglySorted Item_lt (Mem.view (Mem.writes (txn_tx mem_txn)))
  /\ Forall readable (in_bounds "b" "" (Mem.view (Mem.writes (txn_tx mem_txn))))
  /\ exists (ps : list (string * Reader)) (errp' : option error),
       txn_Ascend mem_txn "b" "" collect [] None = Returns (ps, errp')
       /\ txn_Descend mem_txn "b" "" collect [] None = Returns (rev ps, errp').
Proof.
  assert (Hr : Forall readable
                 (in_bounds "b" "" (Mem.view (Mem.writes (txn_tx mem_txn)))))
    by apply Forall_filter, view_readable.
  split; [reflexivity|]. split; [apply view_sorted|]. split; [exact Hr|].
  exact (@Descend_reverses_Ascend Mem.engine mem_txn _ "b" "" None
           eq_refl (view_sorted _) Hr).
Defined.

(** Property X8.  Two runs of [Ascend] over ranges that meet make one run over the
    range around them: a consumer that collected [Ascend(a, mid)] and
    goes on with [Ascend(mid, c)] ends with what [Ascend(a, c)] collects,
    each pair once.  [mid] is not empty and lies between [a] and [c],
    where an empty [c] is no bound. *)
Theorem Ascend_ranges_join (E : Engine) (t : txn) (l : list Item)
  (a mid c : string) (errp : option error) :
  Txn_entries (txn_tx t) = Some l ->
  StronglySorted Item_lt l ->
  Forall readable (in_bounds a c l) ->
  mid <> "" ->
  string_ltb mid a = false ->
  c = "" \/ string_ltb c mid = false ->
  exists ps1 : list (string * Reader),
    txn_Ascend t a mid collect [] errp = Returns (ps1, errp)
    /\ txn_Ascend t mid c collect ps1 errp = txn_Ascend t a c collect [] errp.
Proof.
  intros Hl Hs Hr Hmid Ham Hc. apply nonempty_true in Hmid.
  assert (Hmc : nonempty c && string_ltb c mid = false).
  { destruct Hc as [-> | Hc]; [reflexivity|]. rewrite Hc. apply andb_false_r. }
  assert (Hok1 : string_gtb a mid && nonempty mid = false)
    by (unfold string_gtb; now rewrite Ham).
  assert (Hok2 : string_gtb mid c && nonempty c = false)
    by (unfold string_gtb; now rewrite andb_comm).
  assert (Hok3 : string_gtb a c && nonempty c = false).
  { unfold string_gtb. destruct (nonempty c) eqn:Hne; [|apply andb_false_r].
    simpl in Hmc. rewrite andb_true_r.
    destruct (string_ltb c a) eqn:Hca; [|reflexivity].
    now rewrite (string_lt_le_trans _ _ _ Hca Ham) in Hmc. }
  pose proof (@in_bounds_join a mid c l Hs Hmid Ham Hmc) as Hjoin.
  rewrite <- Hjoin in Hr. apply Forall_app in Hr. destruct Hr as [Hr1 Hr2].
  exists (entry_pairs (in_bounds a mid l)).
  rewrite (@Ascend_run E t l a mid _ collect [] errp Hl Hs Hok1).
  rewrite (@Ascend_run E t l mid c _ collect _ errp Hl Hs Hok2).
  rewrite (@Ascend_run E t l a c _ collect [] errp Hl Hs Hok3).
  rewrite <- Hjoin.
  rewrite !scan_loop_readable
    by (exact Hr1 || exact Hr2 || (apply Forall_app; now split)).
  rewrite !feed_collect, entry_pairs_app. now split.
Qed.

Lemma Ascend_ranges_join_witness :
  Txn_entries (txn_tx mem_txn) = Some (Mem.view (Mem.writes (txn_tx mem_txn)))
  /\ StronglySorted Item_lt (Mem.view (Mem.writes (txn_tx mem_txn)))
  /\ Forall readable (in_bounds "a" "e" (Mem.view (Mem.writes (txn_tx mem_txn))))
  /\ "c" <> ""
  /\ string_ltb "c" "a" = false
  /\ ("e" = "" \/ string_ltb "e" "c" = false)
  /\ exists ps1 : list (string * Reader),
       txn_Ascend mem_txn "a" "c" collect [] None = Returns (ps1, None)
       /\ txn_Ascend mem_txn "c" "e" collect ps1 None
          = txn_Ascend mem_txn "a" "e" collect [] None.
Proof.
  assert (Hr : Forall readable
                 (in_bounds "a" "e" (Mem.view (Mem.writes (txn_tx mem_txn)))))
    by apply Forall_filter, view_readable.
  assert (Hc : "c" <> "") by discriminate.
  assert (He : "e" = "" \/ string_ltb "e" "c" = false) by (right; reflexivity).
  split; [reflexivity|]. split; [apply view_sorted|]. split; [exact Hr|].
  split; [exact Hc|]. split; [reflexivity|]. split; [exact He|].
  exact (@Ascend_ranges_join Mem.engine mem_txn _ "a" "c" "e" None
           eq_refl (view_sorted _) Hr Hc eq_refl He).
Defined.

(** Property X9.  A range from a key to the same key is empty: [Ascend(k, k)] and
    [Descend(k, k)] with [k] not empty hand nothing to the consumer,
    whether the key is in the store or not, and report no error. *)
Theorem range_of_one_key_is_empty (E : Engine) (t : txn) (l : list Item)
  (k : string) (S : Type) (yield : Yield S) (s : S) (errp : option error) :
  Txn_entries (txn_tx t) = Some l ->
  StronglySorted Item_lt l ->
  k <> "" ->
  txn_Ascend t k k yield s errp = Returns (s, errp)
  /\ txn_Descend t k k yield s errp = Returns (s, errp).
Proof.
  intros Hl Hs Hk. apply nonempty_true in Hk.
  assert (Hok : string_gtb k k && nonempty k = false)
    by (unfold string_gtb; now rewrite string_ltb_irrefl).
  rewrite (@Ascend_run E t l k k _ yield s errp Hl Hs Hok).
  rewrite (@Descend_run E t l k k _ yield s errp Hl Hs Hok).
  rewrite (@in_bounds_same k l Hk). now split.
Qed.

Lemma range_of_one_key_is_empty_witness :
  Txn_entries (txn_tx mem_txn) = Some (Mem.view (Mem.writes (txn_tx mem_txn)))
  /\ StronglySorted Item_lt (Mem.view (Mem.writes (txn_tx mem_txn)))
  /\ "c" <> ""
  /\ txn_Ascend mem_txn "c" "c" collect [] None = Returns ([], None)
  /\ txn_Descend mem_txn "c" "c" collect [] None = Returns ([], None).
Proof.
  assert (Hc : "c" <> "") by discriminate.
  split; [reflexivity|]. split; [apply view_sorted|]. split; [exact Hc|].
  exact (@range_of_one_key_is_empty Mem.engine mem_txn _ "c" _ collect [] None
           eq_refl (view_sorted _) Hc).
Defined.

(** ** Get and the iterations *)

Lemma sorted_key_unique (l : list Item) :
  StronglySorted Item_lt l ->
  forall i j : Item, In i l -> In j l -> Item_key i = Item_key j -> i = j.
Proof.
  induction 1 as [|x l Hs IH Hx]; intros i j Hi Hj Hk; [contradiction|].
  rewrite Forall_forall in Hx.
  destruct Hi as [<- | Hi], Hj as [<- | Hj].
  - reflexivity.
  - specialize (Hx j Hj). unfold Item_lt, bytes_lt in Hx.
    rewrite Hk, bytes_ltb_irrefl in Hx. discriminate.
  - specialize (Hx i Hi). unfold Item_lt, bytes_lt in Hx.
    rewrite <- Hk, bytes_ltb_irrefl in Hx. discriminate.
  - now apply IH.
Qed.

Lemma lookup_item_In (l : list Item) (i : Item) :
  StronglySorted Item_lt l -> In i l -> lookup_item (Item_key i) l = inl i.
Proof.
  intros Hs Hi. unfold lookup_item.
  destruct (find (fun j => bytes_eqb (Item_key j) (Item_key i)) l) as [j|] eqn:Hf.
  - apply find_some in Hf. destruct Hf as [Hj Heq]. apply bytes_eqb_eq in Heq.
    now rewrite (sorted_key_unique Hs j i Hj Hi Heq).
  - pose proof (find_none _ _ Hf i Hi) as Hn. simpl in Hn.
    assert (Ht : bytes_eqb (Item_key i) (Item_key i) = true) by now apply bytes_eqb_eq.
    congruence.
Qed.

Lemma name_key (i : Item) (k : string) :
  Item_name i = k <-> Item_key i = list_byte_of_string k.
Proof.
  unfold Item_name. split.
  - intros <-. now rewrite list_byte_of_string_of_list_byte.
  - intros ->. apply string_of_list_byte_of_string.
Qed.

Lemma In_entry_pairs (k : string) (r : Reader) (l : list Item) :
  In (k, r) (entry_pairs l)
  <-> exists (i : Item) (data : list byte),
        In i l /\ Item_name i = k /\ Item_value i = inl data
        /\ r = bytes_NewReader data.
Proof.
  induction l as [|j l IH]; simpl.
  - split; [contradiction|]. now intros [i [data [[] _]]].
  - destruct (Item_value j) as [dj|ej] eqn:Hj; simpl; rewrite IH; split.
    + intros [Heq | [i [data [Hi H]]]].
      * injection Heq as <- <-. exists j, dj. auto.
      * exists i, data. tauto.
    + intros [i [data [[<- | Hi] [Hn [Hv Hr]]]]].
      * left. rewrite Hj in Hv. injection Hv as <-. now subst.
      * right. exists i, data. auto.
    + intros [i [data [Hi H]]]. exists i, data. tauto.
    + intros [i [data [[<- | Hi] [Hn [Hv Hr]]]]]; [congruence|].
      exists i, data. auto.
Qed.

(** Property X10.  [Get] and [Scan] show the same store: with the values readable, a
    key that is not empty gets a stream from [Get] exactly when [Scan]
    hands over a pair with that key, and the stream is that of the
    pair. *)
Theorem Get_agrees_with_Scan (E : Engine) (C : EngineContract E)
  (t : txn) (l : list Item) (errp : option error) :
  Txn_entries (txn_tx t) = Some l ->
  Forall readable l ->
  exists ps : list (string * Reader),
    txn_Scan t collect [] errp = Returns (ps, errp)
    /\ forall (k : string) (r : Reader),
         k <> "" -> (txn_Get t k = inl r <-> In (k, r) ps).
Proof.
  intros Hl Hr. exists (entry_pairs l). split.
  - rewrite (@Scan_run E t l _ collect [] errp Hl), scan_loop_readable by exact Hr.
    now rewrite feed_collect.
  - intros k r Hk. pose proof (entries_sorted _ Hl) as Hs.
    unfold txn_Get. rewrite (Get_entries _ Hl (nonempty_bytes Hk)).
    rewrite In_entry_pairs. split.
    + unfold lookup_item.
      destruct (find (fun i => bytes_eqb (Item_key i) (list_byte_of_string k)) l)
        as [i|] eqn:Hf; [|simpl; discriminate].
      apply find_some in Hf. destruct Hf as [Hi Heq]. apply bytes_eqb_eq in Heq.
      destruct (Item_value i) as [v|e] eqn:Hv; [|discriminate].
      intros [= <-]. exists i, v. repeat split; auto. now apply name_key.
    + intros [i [data [Hi [Hn [Hv ->]]]]]. apply name_key in Hn.
      rewrite <- Hn, (@lookup_item_In l i Hs Hi). now rewrite Hv.
Qed.

Lemma Get_agrees_with_Scan_witness :
  EngineContract Mem.engine
  /\ Txn_entries (txn_tx mem_txn) = Some (Mem.view (Mem.writes (txn_tx mem_txn)))
  /\ Forall readable (Mem.view (Mem.writes (txn_tx mem_txn)))
  /\ exists ps : list (string * Reader),
       txn_Scan mem_txn collect [] None = Returns (ps, None)
       /\ forall (k : string) (r : Reader),
            k <> "" -> (txn_Get mem_txn k = inl r <-> In (k, r) ps).
Proof.
  split; [exact Mem_contract|]. split; [reflexivity|].
  split; [apply view_readable|].
  exact (@Get_agrees_with_Scan Mem.engine Mem_contract mem_txn _ None
           eq_refl (view_readable _)).
Defined.

(** ** Writes and what is read after them *)

Lemma In_upsert (k v : list byte) (l : list Item) :
  StronglySorted Item_lt l ->
  forall i : Item,
    In i (Mem.upsert k v l) <-> i = mkItem k (inl v) \/ (In i l /\ Item_key i <> k).
Proof.
  induction 1 as [|x l Hs IH Hx]; intro i; simpl.
  - split; [intros [<- | []]; now left | intros [-> | [[] _]]; now left].
  - rewrite Forall_forall in Hx.
    destruct (bytes_Compare k (Item_key x)) eqn:Hc; simpl.
    + (* the entry under the key is replaced *)
      apply bytes_Compare_eq in Hc. split.
      * intros [<- | Hi]; [now left|]. right. split; [now right|].
        intro Hk. specialize (Hx i Hi). unfold Item_lt, bytes_lt in Hx.
        rewrite Hk, <- Hc, bytes_ltb_irrefl in Hx. discriminate.
      * intros [-> | [[<- | Hi] Hk]]; [now left|congruence|now right].
    + (* the key comes before every entry *)
      assert (Hkx : bytes_ltb k (Item_key x) = true)
        by (unfold bytes_ltb; now rewrite Hc).
      split.
      * intros [<- | [<- | Hi]]; [now left| |].
        -- right. split; [now left|]. intro Hk.
           rewrite Hk, bytes_ltb_irrefl in Hkx. discriminate.
        -- right. split; [now right|]. intro Hk.
           specialize (Hx i Hi). unfold Item_lt, bytes_lt in Hx.
           rewrite Hk in Hx. rewrite (bytes_ltb_asym _ _ Hx) in Hkx. discriminate.
      * intros [-> | [Hi _]]; [now left|now right].
    + (* the key comes after the first entry *)
      assert (Hxk : Item_key x <> k).
      { intro Hk. rewrite Hk, bytes_Compare_refl in Hc. discriminate. }
      rewrite IH. split.
      * intros [<- | [-> | [Hi Hk]]]; [right; auto | now left | right; auto].
      * intros [-> | [[<- | Hi] Hk]]; [right; now left | now left | right; right; auto].
Qed.

Lemma Mem_writes : EngineWrites Mem.engine.
Proof.
  constructor; simpl.
  - intros t t' k v l. unfold Mem.Set_, Mem.modify, Mem.entries.
    destruct (Mem.update t); simpl; [|discriminate].
    destruct (Mem.discarded t) eqn:Hd; [discriminate|].
    destruct (Mem.refused k (Some v)); [discriminate|].
    intros [= <-] [= <-]. simpl.
    eexists. split; [reflexivity|]. simpl. apply In_upsert, view_sorted.
  - intros t t' k l. unfold Mem.Delete, Mem.modify, Mem.entries.
    destruct (Mem.update t); simpl; [|discriminate].
    destruct (Mem.discarded t) eqn:Hd; [discriminate|].
    destruct (Mem.refused k None); [discriminate|].
    intros [= <-] [= <-]. simpl.
    eexists. split; [reflexivity|]. simpl. intro i. unfold Mem.remove.
    rewrite filter_In, negb_true_iff. split; intros [Hi Hk]; split; auto.
    + intro Heq. apply bytes_eqb_eq in Heq. congruence.
    + destruct (bytes_eqb (Item_key i) k) eqn:Heq; [|reflexivity].
      apply bytes_eqb_eq in Heq. contradiction.
Qed.

Lemma Set_accepted (E : Engine) (t t' : txn) (k : string) (r : Reader)
  (data : list byte) :
  io_ReadAll r = (data, None) ->
  txn_Set t k (Some r) = Returns (t', None) ->
  Txn_Set (txn_tx t) (list_byte_of_string k) data = (txn_tx t', None).
Proof.
  intro Hr. unfold txn_Set. destruct (txn_db t); [|discriminate]. rewrite Hr.
  destruct (Txn_Set (txn_tx t) (list_byte_of_string k) data) as [tx' err].
  now intros [= <- ->].
Qed.

Lemma Delete_accepted (E : Engine) (t t' : txn) (k : string) :
  txn_Delete t k = (t', None) ->
  Txn_Delete (txn_tx t) (list_byte_of_string k) = (txn_tx t', None).
Proof.
  unfold txn_Delete. destruct (txn_db t); [|discriminate].
  destruct (Txn_Delete (txn_tx t) (list_byte_of_string k)) as [tx' [err|]].
  - destruct (errors_Is err ErrKeyNotFound); discriminate.
  - now intros [= <-].
Qed.

(** Property X11.  A write is seen by the iterations on the same handle: after a [Set]
    that returned without error, [Scan] hands over the pair written,
    under the very key given and with the bytes read from the stream,
    and beside it the pairs there were under other keys, and nothing
    else. *)
Theorem Set_then_Scan (E : Engine) (W : EngineWrites E) (t t' : txn)
  (l : list Item) (k : string) (r : Reader) (data : list byte)
  (errp : option error) :
  Txn_entries (txn_tx t) = Some l ->
  Forall readable l ->
  io_ReadAll r = (data, None) ->
  txn_Set t k (Some r) = Returns (t', None) ->
  exists ps ps' : list (string * Reader),
    txn_Scan t collect [] errp = Returns (ps, errp)
    /\ txn_Scan t' collect [] errp = Returns (ps', errp)
    /\ forall (k' : string) (r' : Reader),
         In (k', r') ps'
         <-> (k' = k /\ r' = bytes_NewReader data) \/ (k' <> k /\ In (k', r') ps).
Proof.
  intros Hl Hr Hread Hset.
  pose proof (Set_accepted t k Hread Hset) as Hs.
  destruct (entries_after_Set _ _ _ Hs Hl) as [l' [Hl' Hin]].
  assert (Hr' : Forall readable l').
  { apply Forall_forall. intros i Hi. apply Hin in Hi.
    destruct Hi as [-> | [Hi _]]; [now exists data|].
    rewrite Forall_forall in Hr. now apply Hr. }
  exists (entry_pairs l), (entry_pairs l').
  rewrite (@Scan_run E t l _ collect [] errp Hl),
    (@Scan_run E t' l' _ collect [] errp Hl').
  rewrite !scan_loop_readable by assumption. rewrite !feed_collect.
  split; [reflexivity|]. split; [reflexivity|].
  intros k' r'. rewrite !In_entry_pairs. split.
  - intros [i [d [Hi [Hn [Hv ->]]]]]. apply Hin in Hi.
    destruct Hi as [-> | [Hi Hk]].
    + left. simpl in Hv. injection Hv as <-. split; [|reflexivity].
      rewrite <- Hn. apply string_of_list_byte_of_string.
    + right. split.
      * intros ->. apply Hk. now apply name_key.
      * exists i, d. auto.
  - intros [[-> ->] | [Hk [i [d [Hi [Hn [Hv ->]]]]]]].
    + exists (mkItem (list_byte_of_string k) (inl data)), data.
      repeat split; [apply Hin; now left|].
      apply string_of_list_byte_of_string.
    + exists i, d. repeat split; auto. apply Hin. right. split; [exact Hi|].
      intro Hkey. apply Hk. rewrite <- Hn. now apply name_key.
Qed.

Lemma Set_then_Scan_witness :
  EngineWrites Mem.engine
  /\ Txn_entries (txn_tx mem_txn) = Some (Mem.view (Mem.writes (txn_tx mem_txn)))
  /\ Forall readable (Mem.view (Mem.writes (txn_tx mem_txn)))
  /\ io_ReadAll (bytes_NewReader []) = ([], None)
  /\ txn_Set mem_txn "k" (Some (bytes_NewReader [])) = Returns (mem_txn_k, None)
  /\ exists ps ps' : list (string * Reader),
       txn_Scan mem_txn collect [] None = Returns (ps, None)
       /\ txn_Scan mem_txn_k collect [] None = Returns (ps', None)
       /\ forall (k' : string) (r' : Reader),
            In (k', r') ps'
            <-> (k' = "k" /\ r' = bytes_NewReader []) \/ (k' <> "k" /\ In (k', r') ps).
Proof.
  split; [exact Mem_writes|]. split; [reflexivity|].
  split; [apply view_readable|]. split; [reflexivity|]. split; [reflexivity|].
  exact (@Set_then_Scan Mem.engine Mem_writes mem_txn mem_txn_k _ "k"
           (bytes_NewReader []) [] None eq_refl (view_readable _) eq_refl eq_refl).
Defined.

(** Property X12.  A deletion is seen on the same handle: after a [Delete] of a key
    that returned without error, [Get] of the key fails with
    [os.ErrNotExist], and [Scan] hands over the pairs there were under
    other keys and none under the key. *)
Theorem Delete_then_Get (E : Engine) (C : EngineContract E) (W : EngineWrites E)
  (t t' : txn) (l : list Item) (k : string) (errp : option error) :
  Txn_entries (txn_tx t) = Some l ->
  Forall readable l ->
  k <> "" ->
  txn_Delete t k = (t', None) ->
  txn_Get t' k = inr ErrNotExist
  /\ exists ps ps' : list (string * Reader),
       txn_Scan t collect [] errp = Returns (ps, errp)
       /\ txn_Scan t' collect [] errp = Returns (ps', errp)
       /\ forall (k' : string) (r' : Reader),
            In (k', r') ps' <-> k' <> k /\ In (k', r') ps.
Proof.
  intros Hl Hr Hk Hdel.
  pose proof (Delete_accepted t k Hdel) as Hd.
  destruct (entries_after_Delete _ _ Hd Hl) as [l' [Hl' Hin]].
  assert (Hr' : Forall readable l').
  { apply Forall_forall. intros i Hi. apply Hin in Hi.
    rewrite Forall_forall in Hr. now apply Hr. }
  split.
  - unfold txn_Get. rewrite (Get_entries _ Hl' (nonempty_bytes Hk)).
    unfold lookup_item.
    destruct (find (fun i => bytes_eqb (Item_key i) (list_byte_of_string k)) l')
      as [i|] eqn:Hf; [|reflexivity].
    apply find_some in Hf. destruct Hf as [Hi Heq]. apply bytes_eqb_eq in Heq.
    apply Hin in Hi. now destruct Hi.
  - exists (entry_pairs l), (entry_pairs l').
    rewrite (@Scan_run E t l _ collect [] errp Hl),
      (@Scan_run E t' l' _ collect [] errp Hl').
    rewrite !scan_loop_readable by assumption. rewrite !feed_collect.
    split; [reflexivity|]. split; [reflexivity|].
    intros k' r'. rewrite !In_entry_pairs. split.
    + intros [i [d [Hi [Hn [Hv ->]]]]]. apply Hin in Hi. destruct Hi as [Hi Hkey].
      split; [|exists i, d; auto].
      intros ->. apply Hkey. now apply name_key.
    + intros [Hne [i [d [Hi [Hn [Hv ->]]]]]].
      exists i, d. repeat split; auto. apply Hin. split; [exact Hi|].
      intro Hkey. apply Hne. rewrite <- Hn. now apply name_key.
Qed.

Lemma Delete_then_Get_witness :
  EngineContract Mem.engine
  /\ EngineWrites Mem.engine
  /\ Txn_entries (txn_tx mem_txn) = Some (Mem.view (Mem.writes (txn_tx mem_txn)))
  /\ Forall readable (Mem.view (Mem.writes (txn_tx mem_txn)))
  /\ "c" <> ""
  /\ txn_Delete mem_txn "c" = (mem_txn_no_c, None)
  /\ txn_Get mem_txn_no_c "c" = inr ErrNotExist.
Proof.
  assert (Hc : "c" <> "") by discriminate.
  split; [exact Mem_contract|]. split; [exact Mem_writes|].
  split; [reflexivity|]. split; [apply view_readable|]. split; [exact Hc|].
  split; [reflexivity|].
  exact (proj1 (@Delete_then_Get Mem.engine Mem_contract Mem_writes mem_txn
                  mem_txn_no_c _ "c" None eq_refl (view_readable _) Hc eq_refl)).
Defined.

(** ** What ends a handle, and what does not *)

Lemma run_call_mark (E : Engine) (c : call) (t t1 : txn) (e : option error) :
  run_call c t = Returns (t1, e) ->
  txn_db t1 = if is_finisher c then None else txn_db t.
Proof.
  destruct c as [| |k|k v|k]; simpl.
  - unfold txn_Commit. destruct (txn_db t) eqn:Hdb.
    + destruct (Txn_Commit (txn_tx t)). now intros [= <- _].
    + now intros [= <- _].
  - unfold txn_discard. destruct (txn_db t) eqn:Hdb; now intros [= <- _].
  - now intros [= <- _].
  - unfold txn_Set. destruct (txn_db t) eqn:Hdb; [|now intros [= <- _]].
    destruct v as [r|]; [|discriminate].
    destruct (io_ReadAll r) as [data [err|]]; [now intros [= <- _]|].
    destruct (Txn_Set (txn_tx t) (list_byte_of_string k) data).
    now intros [= <- _].
  - unfold txn_Delete. destruct (txn_db t) eqn:Hdb; [|now intros [= <- _]].
    destruct (Txn_Delete (txn_tx t) (list_byte_of_string k)) as [tx' [err|]];
      [destruct (errors_Is err ErrKeyNotFound)|]; now intros [= <- _].
Qed.

Lemma run_calls_mark (E : Engine) (cs : list call) (t t' : txn) :
  run_calls cs t = Returns t' ->
  txn_db t' = if existsb is_finisher cs then None else txn_db t.
Proof.
  revert t. induction cs as [|c cs IH]; intros t; simpl.
  - now intros [= <-].
  - destruct (run_call c t) as [[t1 e]|] eqn:Hc; [|discriminate].
    intro Hrun. rewrite (IH _ Hrun), (run_call_mark _ _ Hc).
    now destruct (is_finisher c), (existsb is_finisher cs).
Qed.

(** Property X13.  Only [Commit] and [Rollback] end a handle.  After a run of calls
    that did not panic the handle is done exactly when it was done
    before or the run had a [Commit] or a [Rollback] in it; [Get], [Set]
    and [Delete] leave the mark as it is, whatever the engine answered
    to them. *)
Theorem only_finishers_end_a_handle (E : Engine) (cs : list call) (t t' : txn) :
  run_calls cs t = Returns t' ->
  (txn_db t' = None <-> txn_db t = None \/ existsb is_finisher cs = true)
  /\ (txn_db t' <> None -> txn_db t' = txn_db t).
Proof.
  intro Hrun. rewrite (run_calls_mark _ _ Hrun).
  destruct (existsb is_finisher cs); split.
  - split; [intros _; now right|reflexivity].
  - intro H. now contradiction H.
  - split; [intro H; now left|]. intros [H | H]; [exact H|discriminate].
  - reflexivity.
Qed.

Lemma only_finishers_end_a_handle_witness :
  run_calls some_calls mem_txn = Returns mem_txn_after
  /\ txn_db mem_txn_after = txn_db mem_txn
  /\ txn_db mem_txn_after = Some mem_database.
Proof.
  assert (Hrun : run_calls some_calls mem_txn = Returns mem_txn_after) by reflexivity.
  split; [exact Hrun|]. split; [|reflexivity].
  apply (proj2 (only_finishers_end_a_handle some_calls mem_txn Hrun)).
  discriminate.
Defined.

(** Property X14.  The handles that [NewTransaction] and [NewSnapshot] return are
    active, over a read-write and a read-only engine transaction, and
    stay so through any run of [Get], [Set] and [Delete]: the first
    [Rollback] or [Discard] after it returns nil and discards the engine
    transaction, and the first [Commit] returns what the engine's
    [Commit] answers. *)
Theorem fresh_handles_are_active (E : Engine) (db : DB) (cs : list call) :
  existsb is_finisher cs = false ->
  txn_tx (Transaction_txn (Database_NewTransaction (New db))) = DB_NewTransaction db true
  /\ txn_tx (Snapshot_txn (Database_NewSnapshot (New db))) = DB_NewTransaction db false
  /\ (forall t' : txn,
         run_calls cs (Transaction_txn (Database_NewTransaction (New db))) = Returns t' ->
         Transaction_Rollback {| Transaction_txn := t' |}
         = ({| Transaction_txn :=
                 {| txn_db := None; txn_tx := Txn_Discard (txn_tx t') |} |}, None)
         /\ Transaction_Commit {| Transaction_txn := t' |}
            = ({| Transaction_txn :=
                    {| txn_db := None; txn_tx := fst (Txn_Commit (txn_tx t')) |} |},
               snd (Txn_Commit (txn_tx t'))))
  /\ (forall s' : txn,
         run_calls cs (Snapshot_txn (Database_NewSnapshot (New db))) = Returns s' ->
         Snapshot_Discard {| Snapshot_txn := s' |}
         = ({| Snapshot_txn :=
                 {| txn_db := None; txn_tx := Txn_Discard (txn_tx s') |} |}, None)).
Proof.
  intro Hcs. split; [reflexivity|]. split; [reflexivity|]. split.
  - intros t' Hrun. pose proof (run_calls_mark _ _ Hrun) as Hdb.
    rewrite Hcs in Hdb. simpl in Hdb. split.
    + unfold Transaction_Rollback, txn_discard. simpl. now rewrite Hdb.
    + unfold Transaction_Commit, on_Transaction. simpl.
      now rewrite (@Commit_forwarded E t' _ Hdb).
  - intros s' Hrun. pose proof (run_calls_mark _ _ Hrun) as Hdb.
    rewrite Hcs in Hdb. simpl in Hdb.
    unfold Snapshot_Discard, txn_discard. simpl. now rewrite Hdb.
Qed.

Lemma fresh_handles_are_active_witness :
  existsb is_finisher some_calls = false
  /\ run_calls some_calls (Transaction_txn (Database_NewTransaction mem_database))
     = Returns mem_txn_after
  /\ snd (Transaction_Rollback {| Transaction_txn := mem_txn_after |}) = None.
Proof.
  assert (Hcs : existsb is_finisher some_calls = false) by reflexivity.
  assert (Hrun : run_calls some_calls
                   (Transaction_txn (Database_NewTransaction mem_database))
                 = Returns mem_txn_after) by reflexivity.
  split; [exact Hcs|]. split; [exact Hrun|].
  pose proof (@fresh_handles_are_active Mem.engine Mem.abcde some_calls Hcs)
    as [_ [_ [HT _]]].
  now rewrite (proj1 (HT mem_txn_after Hrun)).
Defined.

(** Property X15.  The engine's "key not found" does not come out of the adapter.
    [Delete] never returns an error that is or wraps
    [badger.ErrKeyNotFound], on any handle and whatever the engine
    answered; an error of [Get] is or wraps it only when it is the error
    of reading the value of an entry that was found. *)
Theorem key_not_found_is_translated (E : Engine) (t : txn) (k : string) :
  ~ fails_with (snd (txn_Delete t k)) ErrKeyNotFound
  /\ forall e : error,
       txn_Get t k = inr e ->
       errors_Is e ErrKeyNotFound = true ->
       exists item : Item,
         Txn_Get (txn_tx t) (list_byte_of_string k) = inl item
         /\ Item_value item = inr e.
Proof.
  split.
  - unfold txn_Delete. destruct (txn_db t); [|simpl; discriminate].
    destruct (Txn_Delete (txn_tx t) (list_byte_of_string k)) as [tx' [err|]]; simpl.
    + destruct (errors_Is err ErrKeyNotFound) eqn:Hnf; simpl;
        [discriminate|congruence].
    + tauto.
  - intros e. unfold txn_Get.
    destruct (Txn_Get (txn_tx t) (list_byte_of_string k)) as [item|err].
    + destruct (Item_value item) as [v|e'] eqn:Hv; [discriminate|].
      intros [= <-] _. now exists item.
    + destruct (errors_Is err ErrKeyNotFound) eqn:Hnf.
      * intros [= <-]. discriminate.
      * intros [= <-]. congruence.
Qed.
